(** * Request/response correlation bridge over a pub/sub transport

    A shallow embedding of the TypeScript sources
    [packages/proxy-server/src/proxy-server.ts] (gateway, event router,
    readiness registry, access issuer) and of the worker-side forwarder
    ([forwardToLocal], [onMessage]), together with the properties the
    specification states about them.

    Conventions of the embedding:
    - JavaScript values that travel through [JSON.stringify]/[JSON.parse]
      are values of the inductive type [JSON]; [undefined] is [None] of an
      [option JSON]; an object is the list of its own properties in
      property order;
    - a number is a double: a dyadic rational [Num m e] (the value
      [m / 2^e]), negative zero, NaN or an infinity;
    - a string is the UTF-8 encoding of the JavaScript string;
    - what the platform does and the sources only call ([JSON.parse],
      [JSON.stringify], [String] on a number, the [Response] constructor on
      a status outside the range where the platforms agree) is a field of
      the class [Runtime]; the handlers are defined, and the theorems hold,
      for every runtime. The examples run on [example_runtime], whose codec
      is the one of module [Json]: it is [JSON.stringify] and [JSON.parse]
      on the fragment of the values and texts described there;
    - the module-level mutable state ([pending], timers, promises, the
      readiness store, the transport, the console) is one record threaded
      through the handlers;
    - calls into the outside world (uuid generation, the transport publish,
      the local HTTP call, token minting, reading a request body) take
      their outcome as an argument. *)

From Stdlib Require Import ZArith NArith Ascii String List Lia Bool.
From Stdlib Require Import Decimal DecimalFacts DecimalN DecimalString.
From stdpp Require Import base option list gmap strings.

Local Open Scope Z_scope.

(** ** JSON values, and the codec on the integer fragment *)

Module Json.

(** A double. [Num m e] is the rational [m / 2^e], written with [m] odd
    when [e] is not 0, so that an integer has [e = 0]; every finite double
    other than negative zero is one. *)
Inductive number : Type :=
| Num (m : Z) (e : N)
| NegZero
| NaN
| Infinity (negative : bool).

(** The double that holds the integer [z]. *)
Definition int (z : Z) : number := Num z 0.

(** The integer a number is, when it is one. *)
Definition integer_value (n : number) : option Z :=
  match n with
  | Num m e =>
      if m mod 2 ^ Z.of_N e =? 0 then Some (m / 2 ^ Z.of_N e) else None
  | NegZero => Some 0
  | NaN | Infinity _ => None
  end.

(** [Number.isSafeInteger]: an integer of magnitude below 2^53. *)
Definition safe_integer (n : number) : bool :=
  match n with
  | Num z 0%N => Z.abs z <? 2 ^ 53
  | _ => false
  end.

#[warnings="-register-all"]
Inductive JSON : Type :=
| JNull
| JBool (b : bool)
| JNum (n : number)
| JStr (s : string)
| JArr (items : list JSON)
| JObj (fields : list (string * JSON)).

(** Induction principle that goes under arrays and objects. *)
Section JSON_induction.
Variable P : JSON → Prop.
Hypothesis Hnull : P JNull.
Hypothesis Hbool : ∀ b, P (JBool b).
Hypothesis Hnum : ∀ n, P (JNum n).
Hypothesis Hstr : ∀ s, P (JStr s).
Hypothesis Harr : ∀ items, Forall P items → P (JArr items).
Hypothesis Hobj : ∀ fields, Forall (λ kv, P kv.2) fields → P (JObj fields).

Fixpoint JSON_nested_ind (v : JSON) : P v :=
  match v with
  | JNull => Hnull
  | JBool b => Hbool b
  | JNum n => Hnum n
  | JStr s => Hstr s
  | JArr items =>
      Harr items
        ((fix go (l : list JSON) : Forall P l :=
            match l with
            | [] => Forall_nil_2 P
            | x :: l' => Forall_cons_2 P x l' (JSON_nested_ind x) (go l')
            end) items)
  | JObj fields =>
      Hobj fields
        ((fix go (l : list (string * JSON)) : Forall (λ kv, P kv.2) l :=
            match l with
            | [] => Forall_nil_2 _
            | kv :: l' =>
                Forall_cons_2 (λ kv, P kv.2) kv l' (JSON_nested_ind kv.2) (go l')
            end) fields)
  end.
End JSON_induction.

(** Characters with a role in the grammar. *)
Definition dquote : ascii := "034"%char.
Definition backslash : ascii := "092"%char.

Definition is_ws (c : ascii) : bool :=
  match c with
  | " "%char | "009"%char | "010"%char | "013"%char => true
  | _ => false
  end.

Fixpoint skip_ws (s : string) : string :=
  match s with
  | String c r => if is_ws c then skip_ws r else s
  | EmptyString => EmptyString
  end.

(** *** Printing: [JSON.stringify] on the fragment *)

Definition hex_digit (n : nat) : ascii :=
  match n with
  | 0%nat => "0" | 1%nat => "1" | 2%nat => "2" | 3%nat => "3"
  | 4%nat => "4" | 5%nat => "5" | 6%nat => "6" | 7%nat => "7"
  | 8%nat => "8" | 9%nat => "9" | 10%nat => "a" | 11%nat => "b"
  | 12%nat => "c" | 13%nat => "d" | 14%nat => "e" | _ => "f"
  end%char.

(** QuoteJSONString: the two-character escapes, [\u00xx] for the other
    control characters, every other character as it is. *)
Definition escape_char (c : ascii) : string :=
  if Ascii.eqb c dquote then String backslash (String dquote EmptyString)
  else if Ascii.eqb c backslash then String backslash (String backslash EmptyString)
  else if Ascii.eqb c "008"%char then String backslash "b"
  else if Ascii.eqb c "012"%char then String backslash "f"
  else if Ascii.eqb c "010"%char then String backslash "n"
  else if Ascii.eqb c "013"%char then String backslash "r"
  else if Ascii.eqb c "009"%char then String backslash "t"
  else if (nat_of_ascii c <? 32)%nat then
    String backslash
      (String "u" (String "0" (String "0"
        (String (hex_digit (nat_of_ascii c / 16))
          (String (hex_digit (nat_of_ascii c mod 16)) EmptyString)))))
  else String c EmptyString.

Fixpoint quote_body (s : string) : string :=
  match s with
  | EmptyString => EmptyString
  | String c r => escape_char c +:+ quote_body r
  end.

Definition quote (s : string) : string :=
  String dquote (quote_body s +:+ String dquote EmptyString).

(** The decimal numeral of an integer. *)
Definition print_Z (n : Z) : string :=
  match n with
  | Z0 => "0"
  | Zpos p => NilEmpty.string_of_uint (Pos.to_uint p)
  | Zneg p => String "-" (NilEmpty.string_of_uint (Pos.to_uint p))
  end.

Fixpoint zeros (n : nat) : string :=
  match n with
  | O => EmptyString
  | S k => String "0" (zeros k)
  end.

Fixpoint first_chars (n : nat) (s : string) : string :=
  match n, s with
  | S k, String c r => String c (first_chars k r)
  | _, _ => EmptyString
  end.

Fixpoint skip_chars (n : nat) (s : string) : string :=
  match n, s with
  | S k, String _ r => skip_chars k r
  | _, _ => s
  end.

(** The decimal expansion of [m / 2^e], which is finite: the digits of
    [|m| * 5^e] with the point [e] places from the right. *)
Definition print_dyadic (m : Z) (e : N) : string :=
  let places := N.to_nat e in
  let digits := print_Z (Z.abs m * 5 ^ Z.of_N e) in
  let padded := zeros (S places - String.length digits) +:+ digits in
  let whole := (String.length padded - places)%nat in
  (if m <? 0 then "-" else EmptyString)
  +:+ first_chars whole padded +:+ String "." (skip_chars whole padded).

(** How [JSON.stringify] prints a number: a safe integer as its decimal
    numeral, negative zero as [0], NaN and the infinities as [null]. For the
    other numbers JavaScript prints the shortest numeral that reads back as
    the same double; they are outside the fragment, and get their full
    decimal expansion here. *)
Definition print_number (n : number) : string :=
  match n with
  | Num m 0%N => print_Z m
  | Num m e => print_dyadic m e
  | NegZero => "0"
  | NaN | Infinity _ => "null"
  end.

Fixpoint stringify (v : JSON) : string :=
  match v with
  | JNull => "null"
  | JBool true => "true"
  | JBool false => "false"
  | JNum n => print_number n
  | JStr s => quote s
  | JArr items =>
      String "["
        ((fix elements (l : list JSON) : string :=
            match l with
            | [] => "]"
            | [x] => stringify x +:+ "]"
            | x :: l' => stringify x +:+ String "," (elements l')
            end) items)
  | JObj fields =>
      String "{"
        ((fix members (l : list (string * JSON)) : string :=
            match l with
            | [] => "}"
            | [(k, x)] => quote k +:+ String ":" (stringify x +:+ "}")
            | (k, x) :: l' =>
                quote k +:+ String ":" (stringify x +:+ String "," (members l'))
            end) fields)
  end.

(** *** Reading: [JSON.parse] on the fragment

    The reader accepts the JSON texts whose numerals are integers without
    fraction or exponent and of magnitude below 2^53, whose escapes are
    below [\u0080], and whose objects have no key that is an array index
    (JavaScript would move such a key to the front). On a text it accepts it
    returns what [JSON.parse] returns; on every other text it returns
    [None], be the text outside the fragment or not JSON at all. *)

Definition hex_value (c : ascii) : option nat :=
  let n := nat_of_ascii c in
  if ((48 <=? n) && (n <=? 57))%nat then Some (n - 48)%nat
  else if ((97 <=? n) && (n <=? 102))%nat then Some (n - 87)%nat
  else if ((65 <=? n) && (n <=? 70))%nat then Some (n - 55)%nat
  else None.

Definition unescape (e : ascii) : option ascii :=
  if Ascii.eqb e dquote then Some dquote
  else if Ascii.eqb e backslash then Some backslash
  else match e with
       | "/" => Some "/"
       | "b" => Some "008"
       | "f" => Some "012"
       | "n" => Some "010"
       | "r" => Some "013"
       | "t" => Some "009"
       | _ => None
       end%char.

(** The characters of a string literal after its opening quote, up to and
    including the closing quote. *)
Fixpoint parse_string_body (s : string) : option (string * string) :=
  match s with
  | EmptyString => None
  | String c r =>
      if Ascii.eqb c dquote then Some (EmptyString, r)
      else if Ascii.eqb c backslash then
        match r with
        | String "u" (String h1 (String h2 (String h3 (String h4 r')))) =>
            match hex_value h1, hex_value h2, hex_value h3, hex_value h4 with
            | Some a, Some b, Some c3, Some d =>
                let code := (((a * 16 + b) * 16 + c3) * 16 + d)%nat in
                if (code <? 128)%nat then
                  match parse_string_body r' with
                  | Some (t, rest) => Some (String (ascii_of_nat code) t, rest)
                  | None => None
                  end
                else None
            | _, _, _, _ => None
            end
        | String e r' =>
            match unescape e with
            | Some ch =>
                match parse_string_body r' with
                | Some (t, rest) => Some (String ch t, rest)
                | None => None
                end
            | None => None
            end
        | EmptyString => None
        end
      else if (nat_of_ascii c <? 32)%nat then None
      else
        match parse_string_body r with
        | Some (t, rest) => Some (String c t, rest)
        | None => None
        end
  end.

Definition digit_of (c : ascii) : option (uint → uint) :=
  match c with
  | "0" => Some D0 | "1" => Some D1 | "2" => Some D2 | "3" => Some D3
  | "4" => Some D4 | "5" => Some D5 | "6" => Some D6 | "7" => Some D7
  | "8" => Some D8 | "9" => Some D9
  | _ => None
  end%char.

Fixpoint read_digits (s : string) : uint * string :=
  match s with
  | EmptyString => (Nil, s)
  | String c r =>
      match digit_of c with
      | Some d => let '(u, rest) := read_digits r in (d u, rest)
      | None => (Nil, s)
      end
  end.

(** A character that would continue a numeral: a further digit, or the
    start of a fraction or an exponent. *)
Definition continues_number (s : string) : bool :=
  match s with
  | String c _ =>
      match digit_of c with
      | Some _ => true
      | None =>
          match c with
          | "." | "e" | "E" => true
          | _ => false
          end%char
      end
  | EmptyString => false
  end.

Definition parse_unsigned (s : string) : option (N * string) :=
  let '(u, rest) := read_digits s in
  match u with
  | Nil => None
  | D0 Nil => if continues_number rest then None else Some (0%N, rest)
  | D0 _ => None
  | _ => if continues_number rest then None else Some (N.of_uint u, rest)
  end.

Definition parse_number (s : string) : option (Z * string) :=
  match s with
  | String "-" r =>
      match parse_unsigned r with
      | Some (0%N, _) => None
      | Some (n, rest) => Some (- Z.of_N n, rest)
      | None => None
      end
  | _ =>
      match parse_unsigned s with
      | Some (n, rest) => Some (Z.of_N n, rest)
      | None => None
      end
  end.

(** The rest of [s] after the literal [lit], when [s] starts with it. *)
Fixpoint strip_prefix (lit s : string) : option string :=
  match lit with
  | EmptyString => Some s
  | String a lit' =>
      match s with
      | String b s' => if Ascii.eqb a b then strip_prefix lit' s' else None
      | EmptyString => None
      end
  end.

Definition expect (lit : string) (v : JSON) (s : string) : option (JSON * string) :=
  match strip_prefix lit s with
  | Some rest => Some (v, rest)
  | None => None
  end.

(** The rest of [s] after optional white space and the character [c]. *)
Definition peek (c : ascii) (s : string) : option string :=
  match skip_ws s with
  | String c' r => if Ascii.eqb c' c then Some r else None
  | EmptyString => None
  end.

(** Property definition on an object: an existing key keeps its place and
    takes the new value, a new key goes last. *)
Fixpoint obj_set (k : string) (v : JSON) (fields : list (string * JSON))
  : list (string * JSON) :=
  match fields with
  | [] => [(k, v)]
  | (k', v') :: fields' =>
      if String.eqb k k' then (k, v) :: fields' else (k', v') :: obj_set k v fields'
  end.

Definition build_object (members : list (string * JSON)) : list (string * JSON) :=
  fold_left (λ acc kv, obj_set kv.1 kv.2 acc) members [].

Fixpoint parse_value (fuel : nat) (s : string) {struct fuel} : option (JSON * string) :=
  match fuel with
  | O => None
  | S k =>
      match skip_ws s with
      | EmptyString => None
      | String c r =>
          if Ascii.eqb c "{" then
            match peek "}" r with
            | Some r' => Some (JObj [], r')
            | None =>
                match parse_members k r with
                | Some (ms, rest) => Some (JObj (build_object ms), rest)
                | None => None
                end
            end
          else if Ascii.eqb c "[" then
            match peek "]" r with
            | Some r' => Some (JArr [], r')
            | None =>
                match parse_elements k r with
                | Some (vs, rest) => Some (JArr vs, rest)
                | None => None
                end
            end
          else if Ascii.eqb c "t" then expect "true" (JBool true) (String c r)
          else if Ascii.eqb c "f" then expect "false" (JBool false) (String c r)
          else if Ascii.eqb c "n" then expect "null" JNull (String c r)
          else if Ascii.eqb c dquote then
            match parse_string_body r with
            | Some (t, rest) => Some (JStr t, rest)
            | None => None
            end
          else
            match parse_number (String c r) with
            | Some (n, rest) => Some (JNum (int n), rest)
            | None => None
            end
      end
  end
with parse_elements (fuel : nat) (s : string) {struct fuel}
  : option (list JSON * string) :=
  match fuel with
  | O => None
  | S k =>
      match parse_value k s with
      | Some (v, r) =>
          match peek "," r with
          | Some r' =>
              match parse_elements k r' with
              | Some (vs, rest) => Some (v :: vs, rest)
              | None => None
              end
          | None =>
              match peek "]" r with
              | Some r' => Some ([v], r')
              | None => None
              end
          end
      | None => None
      end
  end
with parse_members (fuel : nat) (s : string) {struct fuel}
  : option (list (string * JSON) * string) :=
  match fuel with
  | O => None
  | S k =>
      match peek dquote s with
      | Some r =>
          match parse_string_body r with
          | Some (key, r1) =>
              match peek ":" r1 with
              | Some r2 =>
                  match parse_value k r2 with
                  | Some (v, r3) =>
                      match peek "," r3 with
                      | Some r4 =>
                          match parse_members k r4 with
                          | Some (ms, rest) => Some ((key, v) :: ms, rest)
                          | None => None
                          end
                      | None =>
                          match peek "}" r3 with
                          | Some r4 => Some ([(key, v)], r4)
                          | None => None
                          end
                      end
                  | None => None
                  end
              | None => None
              end
          | None => None
          end
      | None => None
      end
  end.

(** A key that reads as a natural number: [0], or digits that do not start
    with [0]. The array indices, which JavaScript keeps in numeric order
    before the other keys of an object, are among these. *)
Fixpoint all_digits (s : string) : bool :=
  match s with
  | EmptyString => true
  | String c r =>
      match digit_of c with
      | Some _ => all_digits r
      | None => false
      end
  end.

Definition index_key (k : string) : bool :=
  match k with
  | EmptyString => false
  | String "0" EmptyString => true
  | String "0" _ => false
  | String _ _ => all_digits k
  end.

(** The values of the fragment: every number is a safe integer and no
    object has such a key. *)
Fixpoint fragment (v : JSON) : bool :=
  match v with
  | JNum n => safe_integer n
  | JArr items =>
      (fix all (l : list JSON) : bool :=
         match l with [] => true | x :: l' => fragment x && all l' end) items
  | JObj fields =>
      (fix all (l : list (string * JSON)) : bool :=
         match l with
         | [] => true
         | (k, x) :: l' => negb (index_key k) && fragment x && all l'
         end) fields
  | _ => true
  end.

Definition parse (s : string) : option JSON :=
  match parse_value (S (String.length s)) s with
  | Some (v, rest) =>
      match skip_ws rest with
      | EmptyString => if fragment v then Some v else None
      | _ => None
      end
  | None => None
  end.


(** The two inner loops of [stringify], by name. *)
Fixpoint stringify_elements (l : list JSON) : string :=
  match l with
  | [] => "]"
  | [x] => stringify x +:+ "]"
  | x :: l' => stringify x +:+ String "," (stringify_elements l')
  end.

Fixpoint stringify_members (l : list (string * JSON)) : string :=
  match l with
  | [] => "}"
  | [(k, x)] => quote k +:+ String ":" (stringify x +:+ "}")
  | (k, x) :: l' =>
      quote k +:+ String ":" (stringify x +:+ String "," (stringify_members l'))
  end.

(** An object has each key once. *)
Fixpoint wf (v : JSON) : Prop :=
  match v with
  | JArr items => (fix all (l : list JSON) : Prop :=
                     match l with [] => True | x :: l' => wf x ∧ all l' end) items
  | JObj fields =>
      NoDup (map fst fields) ∧
      (fix all (l : list (string * JSON)) : Prop :=
         match l with [] => True | kv :: l' => wf kv.2 ∧ all l' end) fields
  | _ => True
  end.

(** Fuel that [parse_value] needs to read back a printed value. *)
Fixpoint size (v : JSON) : nat :=
  match v with
  | JArr items =>
      S ((fix sum (l : list JSON) : nat :=
            match l with [] => O | x :: l' => (S (size x) + sum l')%nat end) items)
  | JObj fields =>
      S ((fix sum (l : list (string * JSON)) : nat :=
            match l with [] => O | kv :: l' => (S (size kv.2) + sum l')%nat end) fields)
  | _ => 1%nat
  end.

(** The first character of a printed value decides the branch of
    [parse_value]. *)
Definition number_start (c : ascii) : bool :=
  Ascii.eqb c "-" || match digit_of c with Some _ => true | None => false end.

Definition value_start (s : string) : bool :=
  match s with
  | String c _ => negb (is_ws c) && negb (Ascii.eqb c "]")
  | EmptyString => false
  end.

(** Fuel for the elements of an array and the members of an object. *)
Definition esize (l : list JSON) : nat :=
  fold_right (λ x acc, S (size x) + acc)%nat O l.
Definition msize (l : list (string * JSON)) : nat :=
  fold_right (λ kv acc, S (size kv.2) + acc)%nat O l.

(** The values that the codec of this module prints and reads as
    JavaScript does. *)
Definition plain (v : JSON) : Prop := wf v ∧ fragment v = true.

(** [x] is read back from its printed form, whatever follows it. *)
Definition reads_back (x : JSON) : Prop :=
  ∀ fuel rest, (size x ≤ fuel)%nat → continues_number rest = false →
    parse_value fuel (stringify x +:+ rest) = Some (x, rest).

End Json.

(** ** Strings, dynamic values and the platform as the handlers use them *)

Module Js.
Import Json.

(** [s.startsWith(p)], [s.includes(p)], [s.endsWith(p)]. *)
Definition startsWith (s p : string) : bool := String.prefix p s.

Fixpoint includes (s p : string) : bool :=
  String.prefix p s ||
  match s with
  | String _ r => includes r p
  | EmptyString => false
  end.

Definition endsWith (s p : string) : bool :=
  String.prefix (String.rev p) (String.rev s).

(** [s.slice(1)]. *)
Definition slice1 (s : string) : string :=
  match s with
  | String _ r => r
  | EmptyString => EmptyString
  end.

(** [s.split(sep)] for a non-empty separator: [skip] counts the characters
    of a separator just matched that are still to be passed over. *)
Fixpoint split_go (sep : string) (skip : nat) (cur s : string) : list string :=
  match s with
  | EmptyString => [cur]
  | String c r =>
      match skip with
      | S k => split_go sep k cur r
      | O =>
          if String.prefix sep s
          then cur :: split_go sep (String.length sep - 1) EmptyString r
          else split_go sep O (cur +:+ String c EmptyString) r
      end
  end.

Definition split (s sep : string) : list string := split_go sep O EmptyString s.

(** White space for [trim]: the code points WhiteSpace and LineTerminator
    of ECMAScript, in UTF-8. [white_space s] is the number of bytes of the
    white-space code point that [s] starts with, and 0 when it starts with
    none:
    - one byte: U+0009 to U+000D and U+0020;
    - two bytes: U+00A0;
    - three bytes: U+1680, U+2000 to U+200A, U+2028, U+2029, U+202F, U+205F,
      U+3000 and U+FEFF. *)
Definition white_space3 (a b c : nat) : bool :=
  ((a =? 225) && (b =? 154) && (c =? 128)
   || (a =? 226) && (b =? 128)
      && ((128 <=? c) && (c <=? 138) || (c =? 168) || (c =? 169) || (c =? 175))
   || (a =? 226) && (b =? 129) && (c =? 159)
   || (a =? 227) && (b =? 128) && (c =? 128)
   || (a =? 239) && (b =? 187) && (c =? 191))%nat.

Definition white_space (s : string) : nat :=
  match s with
  | String a r =>
      let x := nat_of_ascii a in
      if ((9 <=? x) && (x <=? 13) || (x =? 32))%nat then 1%nat
      else
        match r with
        | String b r' =>
            let y := nat_of_ascii b in
            if ((x =? 194) && (y =? 160))%nat then 2%nat
            else
              match r' with
              | String c _ =>
                  if white_space3 x y (nat_of_ascii c) then 3%nat else O
              | EmptyString => O
              end
        | EmptyString => O
        end
  | EmptyString => O
  end.

(** The same, for a string read from its end: [s] is reversed. *)
Definition white_space_rev (s : string) : nat :=
  match s with
  | String a r =>
      let x := nat_of_ascii a in
      if ((9 <=? x) && (x <=? 13) || (x =? 32))%nat then 1%nat
      else
        match r with
        | String b r' =>
            let y := nat_of_ascii b in
            if ((y =? 194) && (x =? 160))%nat then 2%nat
            else
              match r' with
              | String c _ =>
                  if white_space3 (nat_of_ascii c) y x then 3%nat else O
              | EmptyString => O
              end
        | EmptyString => O
        end
  | EmptyString => O
  end.

(** Drop from the front of [s] what [w] measures, as long as it measures
    something. *)
Fixpoint strip (w : string → nat) (fuel : nat) (s : string) : string :=
  match fuel with
  | O => s
  | S k =>
      match w s with
      | O => s
      | n => strip w k (skip_chars n s)
      end
  end.

Definition trimStart (s : string) : string := strip white_space (String.length s) s.

Definition trimEnd (s : string) : string :=
  String.rev (strip white_space_rev (String.length s) (String.rev s)).

Definition trim (s : string) : string := trimEnd (trimStart s).

(** Case mapping on the ASCII letters; the handlers compare the results
    with ASCII words only. *)
Definition lower (c : ascii) : ascii :=
  let n := nat_of_ascii c in
  if ((65 <=? n) && (n <=? 90))%nat then ascii_of_nat (n + 32) else c.

Definition upper (c : ascii) : ascii :=
  let n := nat_of_ascii c in
  if ((97 <=? n) && (n <=? 122))%nat then ascii_of_nat (n - 32) else c.

Fixpoint map_chars (f : ascii → ascii) (s : string) : string :=
  match s with
  | String c r => String (f c) (map_chars f r)
  | EmptyString => EmptyString
  end.

Definition toLowerCase : string → string := map_chars lower.
Definition toUpperCase : string → string := map_chars upper.

Definition nonempty (s : string) : bool :=
  match s with
  | EmptyString => false
  | String _ _ => true
  end.

(** [a || b] on strings. *)
Definition or_else (a b : string) : string := if nonempty a then a else b.

(** A value of type [unknown]: [None] is [undefined]. *)
Definition value : Type := option JSON.

Inductive JsType := TUndefined | TObject | TBoolean | TNumber | TString.

Definition typeof (v : value) : JsType :=
  match v with
  | None => TUndefined
  | Some JNull => TObject
  | Some (JBool _) => TBoolean
  | Some (JNum _) => TNumber
  | Some (JStr _) => TString
  | Some (JArr _) | Some (JObj _) => TObject
  end.

Definition JsType_eqb (a b : JsType) : bool :=
  match a, b with
  | TUndefined, TUndefined | TObject, TObject | TBoolean, TBoolean
  | TNumber, TNumber | TString, TString => true
  | _, _ => false
  end.

(** ToBoolean. *)
Definition number_truthy (n : number) : bool :=
  match n with
  | Num m _ => negb (m =? 0)
  | NegZero | NaN => false
  | Infinity _ => true
  end.

Definition truthy (v : value) : bool :=
  match v with
  | None | Some JNull | Some (JBool false) => false
  | Some (JNum n) => number_truthy n
  | Some (JStr s) => nonempty s
  | Some (JBool true) | Some (JArr _) | Some (JObj _) => true
  end.

Fixpoint lookup_field (k : string) (fields : list (string * JSON)) : option JSON :=
  match fields with
  | [] => None
  | (k', v) :: fields' => if String.eqb k k' then Some v else lookup_field k fields'
  end.

(** [v?.k] for the property names the handlers read (none of them is a
    built-in property of strings or arrays). *)
Definition get (k : string) (v : value) : value :=
  match v with
  | Some (JObj fields) => lookup_field k fields
  | _ => None
  end.

(** [v === s] for a string literal [s]. *)
Definition is_string (s : string) (v : value) : bool :=
  match v with
  | Some (JStr s') => String.eqb s' s
  | _ => false
  end.

(** What of the platform the sources call and do not define. *)
Class Runtime := {
  (** [JSON.parse(text)]; [None] when it throws. *)
  JSON_parse : string → option JSON;
  (** [JSON.stringify(v)]. *)
  JSON_stringify : JSON → string;
  (** [String(n)] for a number. *)
  Number_toString : number → string;
  (** The status that [new Response(body, { status: n })] gets, [None] when
      the constructor throws, for the values of [n] on which implementations
      differ (see [Response_status] below). *)
  Response_quirk : number → option Z;
}.

Section Conversions.
Context {rt : Runtime}.

(** [String(v)]; [None] when it throws. An object without a property
    [toString] of its own prints as [[object Object]]; one with such a
    property (never a function here) has nothing to convert it, and
    [String] throws a TypeError. An array is the join of its elements,
    [null] counting as the empty string. *)
Fixpoint toString (v : JSON) : option string :=
  match v with
  | JNull => Some "null"
  | JBool true => Some "true"
  | JBool false => Some "false"
  | JNum n => Some (Number_toString n)
  | JStr s => Some s
  | JArr items =>
      (fix join (l : list JSON) : option string :=
         match l with
         | [] => Some EmptyString
         | [x] => match x with JNull => Some EmptyString | _ => toString x end
         | x :: l' =>
             match match x with JNull => Some EmptyString | _ => toString x end,
                   join l' with
             | Some a, Some b => Some (a +:+ String "," b)
             | _, _ => None
             end
         end) items
  | JObj fields =>
      match lookup_field "toString" fields with
      | Some _ => None
      | None => Some "[object Object]"
      end
  end.

Definition null_body_status (z : Z) : bool := (z =? 204) || (z =? 205) || (z =? 304).

Definition status_in_range (z : Z) : bool := (200 <=? z) && (z <=? 599).

(** [new Response(body, { status: n })] with a body that is a string: the
    status the response gets, [None] when the constructor throws. An
    integer from 200 to 599 that is not a null-body status (204, 205, 304)
    is accepted as it is. An integer that is outside 200 to 599, also when
    reduced modulo 2^16, and that is not 101, is refused with a RangeError.
    On the other values the implementations of the Fetch standard differ
    (the standard reduces the status modulo 2^16 before the range check and
    refuses a null-body status that comes with a body; an implementation
    may do neither, or accept 101), and the runtime decides. *)
Definition Response_status (n : number) : option Z :=
  match integer_value n with
  | Some z =>
      if status_in_range z then
        if null_body_status z then Response_quirk n else Some z
      else if status_in_range (z mod 65536) || (z =? 101) then Response_quirk n
      else None
  | None => Response_quirk n
  end.

End Conversions.

(** An exception value: an [Error] with its [name] and [message]. *)
Record JsError := { err_name : string; err_message : string }.

Inductive Completion (A : Type) : Type :=
| Returned (a : A)
| Thrown (e : JsError).
Arguments Returned {A} a.
Arguments Thrown {A} e.

(** The runtime on which the examples run. Its [JSON.stringify] and
    [JSON.parse] are the printer and the reader of module [Json], which are
    those of JavaScript on the fragment; its [JSON.parse] throws on every
    text outside the fragment. [String] prints a safe integer as its decimal
    numeral, and the [Response] constructor refuses every status on which
    the platforms differ. The examples stay inside the fragment. *)
Definition example_number_toString (n : number) : string :=
  match n with
  | NaN => "NaN"
  | Infinity false => "Infinity"
  | Infinity true => "-Infinity"
  | _ => print_number n
  end.

Definition example_runtime : Runtime :=
  {| JSON_parse := parse; JSON_stringify := stringify;
     Number_toString := example_number_toString;
     Response_quirk := λ _, None |}.

(** The runtime's [JSON.stringify] and [JSON.parse] are the codec of module
    [Json] on its fragment: a value of the fragment is printed as [stringify]
    prints it, and a text that [parse] reads is read as that value. *)
Definition agrees_on_fragment (rt : Runtime) : Prop :=
  (∀ v, plain v → JSON_stringify v = stringify v)
  ∧ (∀ s v, parse s = Some v → JSON_parse s = Some v).

End Js.

(** ** The bridge instance: [proxy-server.ts] *)

Module ProxyServer.
Import Json Js.

(** *** Configuration *)

(** What the module reads when it is loaded: the environment, the instance
    identifier drawn at start-up, and whether the [ioredis] import succeeds. *)
Record Process := {
  env : gmap string string;
  randomUUID : string;
  ioredis : bool;
}.

Section Configuration.
Variable proc : Process.

(** [process.env.NAME || fallback]. *)
Definition env_or (name fallback : string) : string :=
  match env proc !! name with
  | Some v => or_else v fallback
  | None => fallback
  end.

Definition HUB_NAME : string := "proxyhub".
Definition CONNECTION_STRING : string := env_or "PUBSUB_CONNECTION_STRING" EmptyString.
Definition AUTH_TOKEN : string := env_or "AUTH_TOKEN" EmptyString.
Definition ALLOWED_CLIENT_IDS : list string :=
  List.filter nonempty (map trim (split (env_or "ALLOWED_CLIENT_IDS" EmptyString) ",")).
Definition READY_STORE : string := toLowerCase (env_or "READY_STORE" "memory").
Definition REDIS_URL : string := env_or "REDIS_URL" EmptyString.
Definition INSTANCE_ID : string := randomUUID proc.
Definition RESPONSE_HUB : string := "response-" +:+ INSTANCE_ID.
Definition SYSTEM_HUB : string := "system".
End Configuration.

(** *** State *)

(** An entry of [pending]. The functions [resolve] and [reject] of a promise
    are represented by the handle of that promise. *)
Record Pending := {
  resolve : nat;
  reject : nat;
  timer : nat;
}.

(** What a call of a promise's [resolve] or [reject] carries. *)
Inductive Outcome :=
| Resolved (status : number) (body : JSON)
| Rejected (message : string).

(** An armed timer: its delay and what the callback closes over. *)
Record Timer := {
  timer_delay : Z;
  timer_requestId : string;
  timer_reject : nat;
}.

(** The readiness store: the in-memory map, or the key-value server behind
    the Redis client (whose commands throw while it is not connected). *)
Inductive ReadyStore :=
| MemStore (mem : gmap string bool)
| RedisStore (db : gmap string string) (connected : bool).

(** The mutable state of the module. A promise is the list of the calls made
    to its [resolve] and [reject] functions, oldest first; the first call
    settles it and later ones would be ignored. [published] lists the calls
    of [sendToUser], oldest first. *)
Record State := {
  pending : gmap string Pending;
  timers : gmap nat Timer;
  promises : gmap nat (list Outcome);
  next_timer : nat;
  next_promise : nat;
  readyStore : ReadyStore;
  published : list (string * string);
}.

Definition set_pending (f : gmap string Pending → gmap string Pending) (st : State) :=
  {| pending := f (pending st); timers := timers st; promises := promises st;
     next_timer := next_timer st; next_promise := next_promise st;
     readyStore := readyStore st; published := published st |}.

Definition set_readyStore (s : ReadyStore) (st : State) :=
  {| pending := pending st; timers := timers st; promises := promises st;
     next_timer := next_timer st; next_promise := next_promise st;
     readyStore := s; published := published st |}.

(** [setTimeout(callback, delay)]: arms a timer and returns its handle. *)
Definition setTimeout (cb : Timer) (st : State) : State * nat :=
  ({| pending := pending st; timers := <[next_timer st := cb]> (timers st);
      promises := promises st;
      next_timer := S (next_timer st); next_promise := next_promise st;
      readyStore := readyStore st; published := published st |},
   next_timer st).

Definition clearTimeout (t : nat) (st : State) : State :=
  {| pending := pending st; timers := delete t (timers st); promises := promises st;
     next_timer := next_timer st; next_promise := next_promise st;
     readyStore := readyStore st; published := published st |}.

(** [new Promise(...)]: a fresh promise with no call yet. *)
Definition new_promise (st : State) : State * nat :=
  ({| pending := pending st; timers := timers st;
      promises := <[next_promise st := []]> (promises st);
      next_timer := next_timer st; next_promise := S (next_promise st);
      readyStore := readyStore st; published := published st |},
   next_promise st).

(** A call of the [resolve] or [reject] function of promise [p]. *)
Definition settle (p : nat) (o : Outcome) (st : State) : State :=
  {| pending := pending st; timers := timers st;
     promises := alter (λ calls, calls ++ [o]) p (promises st);
     next_timer := next_timer st; next_promise := next_promise st;
     readyStore := readyStore st; published := published st |}.

(** The state of a promise is its first call. *)
Definition settled_as (st : State) (p : nat) : option Outcome :=
  match promises st !! p with
  | Some (o :: _) => Some o
  | _ => None
  end.

(** *** Readiness store *)

Definition redis_key (id : string) : string := "ready:" +:+ id.

(** [createReadyStore]: Redis when selected, configured and importable,
    the in-memory map otherwise. *)
Definition createReadyStore (proc : Process)
    (db : gmap string string) (connected : bool) : ReadyStore :=
  if String.eqb (READY_STORE proc) "redis" && nonempty (REDIS_URL proc) && ioredis proc
  then RedisStore db connected
  else MemStore ∅.

(** [store.setReady(clientId, ready)]; [None] when the call throws. *)
Definition setReady (s : ReadyStore) (clientId : string) (ready : bool)
  : option ReadyStore :=
  match s with
  | MemStore mem =>
      Some (MemStore (if ready then <[clientId := true]> mem else delete clientId mem))
  | RedisStore db connected =>
      if connected
      then Some (RedisStore
                   (if ready then <[redis_key clientId := "1"]> db
                    else delete (redis_key clientId) db)
                   connected)
      else None
  end.

(** [store.isReady(clientId)]; [None] when the call throws. *)
Definition isReady (s : ReadyStore) (clientId : string) : option bool :=
  match s with
  | MemStore mem =>
      Some match mem !! clientId with
           | Some b => b
           | None => false
           end
  | RedisStore db connected =>
      if connected
      then Some match db !! redis_key clientId with
                | Some v => nonempty v
                | None => false
                end
      else None
  end.

(** *** Requests and responses *)

(** A request as the handlers read it: [headers] is indexed by lower-case
    header name, [searchParams] is the parsed query of the URL, [text] is
    what [req.text()] resolves to and [json_body] what [req.json()] resolves
    to, [None] when it rejects. A handler reads one of the two. *)
Record Request := {
  method : string;
  pathname : string;
  searchParams : list (string * string);
  headers : gmap string string;
  text : string;
  json_body : option JSON;
}.

Record Response := {
  status : Z;
  content_type : option string;
  body : option string;
}.

(** [req.headers.get(name) || ''] *)
Definition header (req : Request) (name : string) : string :=
  match headers req !! name with
  | Some v => v
  | None => EmptyString
  end.

(** [url.searchParams.get(name) || undefined] *)
Fixpoint first_param (name : string) (ps : list (string * string)) : option string :=
  match ps with
  | [] => None
  | (k, v) :: ps' => if String.eqb k name then Some v else first_param name ps'
  end.

Definition param (req : Request) (name : string) : option string :=
  match first_param name (searchParams req) with
  | Some v => if nonempty v then Some v else None
  | None => None
  end.

Section Handlers.
Context {rt : Runtime}.

(** Safely parse a potential JSON string. *)
Definition parseJSON (payload : value) : value :=
  match payload with
  | None | Some JNull => payload
  | Some (JArr _) | Some (JObj _) => payload
  | Some (JStr s) =>
      match JSON_parse s with
      | Some v => Some v
      | None => payload
      end
  | _ => payload
  end.

(** Build a JSON Response with provided status. [st] is the status of the
    response that the constructor builds. *)
Definition json (b : JSON) (st : Z) : Response :=
  {| status := st; content_type := Some "application/json";
     body := Some (JSON_stringify b) |}.

Definition error_body (message : string) : JSON := JObj [("error", JStr message)].

(** Extract required query params from a Request URL. *)
Definition readInvokeParams (req : Request) : option string * option string :=
  (param req "clientId", param req "path").

(** *** The pending table *)

(** The callback handed to [setTimeout] by [awaitResponse]. *)
Definition timeout_callback (cb : Timer) (st : State) : State :=
  settle (timer_reject cb) (Rejected "Gateway Timeout")
    (set_pending (delete (timer_requestId cb)) st).

(** The armed timer [t] elapses: it leaves the armed timers and its
    callback runs. A handle that is not armed does nothing. *)
Definition on_timeout (t : nat) (st : State) : State :=
  match timers st !! t with
  | Some cb => timeout_callback cb (clearTimeout t st)
  | None => st
  end.

(** Register a promise awaiting a correlated response. *)
Definition awaitResponse (requestId : string) (timeoutMs : Z) (st : State)
  : State * nat :=
  let '(st1, p) := new_promise st in
  let '(st2, t) :=
    setTimeout {| timer_delay := timeoutMs; timer_requestId := requestId;
                  timer_reject := p |} st1 in
  (set_pending (insert requestId {| resolve := p; reject := p; timer := t |}) st2, p).

Definition default_timeoutMs : Z := 30000.

(** Publish a message to the target user via Web PubSub: the call of
    [sendToUser] is recorded. Whether it returns or throws is decided
    outside and given to the caller. *)
Definition publish (clientId : string) (data : JSON) (st : State) : State :=
  {| pending := pending st; timers := timers st; promises := promises st;
     next_timer := next_timer st; next_promise := next_promise st;
     readyStore := readyStore st;
     published := published st ++ [(clientId, JSON_stringify data)] |}.

(** *** POST /invoke *)

Inductive InvokeResult :=
| Replied (r : Response)
| Awaiting (requestId : string) (p : nat)
| Threw.

(** The [catch] block around [publish]: drop the entry just registered. *)
Definition cancel (requestId : string) (st : State) : State :=
  match pending st !! requestId with
  | Some p => set_pending (delete requestId) (clearTimeout (timer p) st)
  | None => st
  end.

(** The body that goes into the envelope. *)
Definition invoke_body (req : Request) : JSON :=
  let contentType := header req "content-type" in
  if includes contentType "application/json" then
    match json_body req with
    | Some v => v
    | None => JNull
    end
  else if nonempty (text req) then
    match parseJSON (Some (JStr (text req))) with
    | Some v => v
    | None => JNull
    end
  else JNull.

Definition request_message (requestId meth path : string) (b : JSON) : JSON :=
  JObj [("type", JStr "request"); ("requestId", JStr requestId);
        ("method", JStr meth); ("path", JStr path); ("body", b)].

(** [handleInvoke] up to the point where it waits for the response promise.
    [uuid] is what [uuidv4()] returns and [publish_ok] whether the transport
    accepts the message. *)
Definition handleInvoke (st : State) (req : Request) (uuid : string)
    (publish_ok : bool) : State * InvokeResult :=
  match readInvokeParams req with
  | (Some clientId, Some path) =>
      match isReady (readyStore st) clientId with
      | None => (st, Threw)
      | Some false => (st, Replied (json (error_body "Client not ready") 409))
      | Some true =>
          let b := invoke_body req in
          let requestId := uuid in
          let message := request_message requestId (method req) path b in
          let '(st1, responsePromise) := awaitResponse requestId default_timeoutMs st in
          let st2 := publish clientId message st1 in
          if publish_ok then (st2, Awaiting requestId responsePromise)
          else (cancel requestId st2,
                Replied (json (error_body "Failed to publish to PubSub") 502))
      end
  | _ =>
      (st, Replied (json (error_body "Missing required query params: clientId and path") 400))
  end.

(** The rest of [handleInvoke], once the response promise is settled. The
    call [json(response.body, response.status)] is inside the [try]: when
    the [Response] constructor refuses the status, the [catch] answers like
    a timeout. *)
Definition handleInvoke_resume (o : Outcome) : Response :=
  match o with
  | Resolved n b =>
      match Response_status n with
      | Some st => json b st
      | None => json (error_body "Gateway Timeout") 504
      end
  | Rejected _ => json (error_body "Gateway Timeout") 504
  end.

(** *** POST /events *)

Definition hubFromSource (ceSource : string) : string :=
  match split ceSource "/hubs/" with
  | _ :: part :: _ =>
      match split part "/" with
      | h :: _ => h
      | [] => EmptyString
      end
  | _ => EmptyString
  end.

Definition is_object (data : value) : bool :=
  truthy data && JsType_eqb (typeof data) TObject.

Definition string_of (v : value) : option string :=
  match v with
  | Some (JStr s) => Some s
  | _ => None
  end.

(** [typeof data.status === 'number' ? data.status : 200] *)
Definition response_status (data : value) : number :=
  match get "status" data with
  | Some (JNum n) => n
  | _ => int 200
  end.

(** ['body' in data ? data.body : null] *)
Definition response_body (data : value) : JSON :=
  match get "body" data with
  | Some v => v
  | None => JNull
  end.

(** The branch of [handleEvents] for the response hub. *)
Definition on_response (data : value) (st : State) : State :=
  if is_object data && is_string "response" (get "type" data) then
    match string_of (get "requestId" data) with
    | Some requestId =>
        match pending st !! requestId with
        | Some entry =>
            settle (resolve entry)
              (Resolved (response_status data) (response_body data))
              (set_pending (delete requestId) (clearTimeout (timer entry) st))
        | None => st
        end
    | None => st
    end
  else st.

(** The branch of [handleEvents] for the system hub. *)
Definition on_system (data : value) (st : State) : State :=
  if is_object data && is_string "init" (get "type" data) then
    match string_of (get "clientId" data) with
    | Some clientId =>
        match setReady (readyStore st) clientId true with
        | Some s => set_readyStore s st
        | None => st
        end
    | None => st
    end
  else st.

Definition handleEvents (proc : Process) (st : State) (req : Request)
  : State * Response :=
  let ceType := header req "ce-type" in
  let ceHub := header req "ce-hub" in
  let ceSource := header req "ce-source" in
  let hub := or_else ceHub (hubFromSource ceSource) in
  let payload := parseJSON (Some (JStr (text req))) in
  let st' :=
    if String.eqb ceType "azure.webpubsub.user.message" && String.eqb hub (RESPONSE_HUB proc)
    then on_response payload st
    else if String.eqb ceType "azure.webpubsub.user.message" && String.eqb hub SYSTEM_HUB
    then on_system payload st
    else st in
  (st', {| status := 200; content_type := None; body := None |}).

(** *** POST /init and POST /auth *)

(** Verify API key on the request. *)
Definition verifyApiKey (proc : Process) (req : Request) : bool :=
  if negb (nonempty (AUTH_TOKEN proc)) then true
  else String.eqb (header req "x-api-key") (AUTH_TOKEN proc).

Fixpoint list_includes (l : list string) (x : string) : bool :=
  match l with
  | [] => false
  | y :: l' => String.eqb y x || list_includes l' x
  end.

(** Check if a clientId is permitted via allow-list, if configured. *)
Definition isClientAllowed (proc : Process) (clientId : string) : bool :=
  match ALLOWED_CLIENT_IDS proc with
  | [] => true
  | _ => list_includes (ALLOWED_CLIENT_IDS proc) clientId
  end.

(** [String(body?.clientId || '')] with [body] read by [req.json()]; the
    empty string when [req.json()] rejects or [String] throws. *)
Definition body_clientId (req : Request) : string :=
  match json_body req with
  | Some b =>
      match get "clientId" (Some b) with
      | Some v =>
          if truthy (Some v) then
            match toString v with
            | Some s => s
            | None => EmptyString
            end
          else EmptyString
      | None => EmptyString
      end
  | None => EmptyString
  end.

Definition handleInit (proc : Process) (st : State) (req : Request)
  : State * option Response :=
  let clientId := body_clientId req in
  if negb (nonempty clientId) then (st, Some (json (error_body "clientId is required") 400))
  else if negb (isClientAllowed proc clientId)
  then (st, Some (json (error_body "Forbidden clientId") 403))
  else
    match setReady (readyStore st) clientId true with
    | Some s => (set_readyStore s st, Some (json (JObj [("ok", JBool true)]) 200))
    | None => (st, None)
    end.

(** What [getClientAccessToken] does: throw, or return a token whose [url]
    may be missing. *)
Inductive TokenOutcome :=
| TokenThrows
| TokenUrl (url : option string).

Definition handleAuth (proc : Process) (req : Request) (token : TokenOutcome)
  : Response :=
  if negb (verifyApiKey proc req) then json (error_body "Unauthorized") 401
  else
    let clientId := body_clientId req in
    if negb (nonempty clientId) then json (error_body "clientId is required") 400
    else if negb (isClientAllowed proc clientId)
    then json (error_body "Forbidden clientId") 403
    else
      match token with
      | TokenUrl (Some url) =>
          if nonempty url then
            json (JObj [("system", JObj [("hub", JStr SYSTEM_HUB); ("url", JStr url)]);
                        ("userId", JStr ("client:" +:+ clientId))]) 200
          else json (error_body "Failed to mint access token") 502
      | _ => json (error_body "Failed to mint access token") 502
      end.

(** *** The instance as a transition system *)

Definition initial (proc : Process) (db : gmap string string) (connected : bool)
  : State :=
  {| pending := ∅; timers := ∅; promises := ∅; next_timer := O; next_promise := O;
     readyStore := createReadyStore proc db connected; published := [] |}.

(** What can happen to an instance: a handler runs (with the outcomes of its
    calls to the outside), an armed timer elapses, the external store changes
    under it, or a [publish] that was still in flight throws and the [catch]
    block of its [handleInvoke] runs. *)
Inductive Event :=
| EvInvoke (req : Request) (uuid : string) (publish_ok : bool)
| EvEvents (req : Request)
| EvInit (req : Request)
| EvTimeout (t : nat)
| EvStore (db : gmap string string) (connected : bool)
| EvPublishFailed (requestId : string).

Definition step (proc : Process) (st : State) (ev : Event) : State :=
  match ev with
  | EvInvoke req uuid ok => (handleInvoke st req uuid ok).1
  | EvEvents req => (handleEvents proc st req).1
  | EvInit req => (handleInit proc st req).1
  | EvTimeout t => on_timeout t st
  | EvStore db connected =>
      match readyStore st with
      | RedisStore _ _ => set_readyStore (RedisStore db connected) st
      | MemStore _ => st
      end
  | EvPublishFailed requestId => cancel requestId st
  end.

Definition run (proc : Process) (st : State) (evs : list Event) : State :=
  fold_left (step proc) evs st.

(** *** Statements about states and events *)

(** What holds of the table, the armed timers and the promises in every
    state an instance can be in:
    - an entry's timer is armed, and its callback holds the entry's promise
      and key;
    - the promise behind an armed timer has received no call yet;
    - two armed timers hold different promises;
    - no promise has received more than one call. *)
Record Inv (st : State) : Prop := {
  inv_entry : ∀ rid e, pending st !! rid = Some e →
    ∃ cb, timers st !! timer e = Some cb
          ∧ timer_reject cb = resolve e ∧ timer_requestId cb = rid;
  inv_timer : ∀ t cb, timers st !! t = Some cb →
    promises st !! timer_reject cb = Some [] ∧ (t < next_timer st)%nat;
  inv_timer_inj : ∀ t1 t2 cb1 cb2,
    timers st !! t1 = Some cb1 → timers st !! t2 = Some cb2 →
    timer_reject cb1 = timer_reject cb2 → t1 = t2;
  inv_promise : ∀ p calls, promises st !! p = Some calls →
    (length calls ≤ 1)%nat ∧ (p < next_promise st)%nat;
}.

(** [req] is a webhook call that [handleEvents] routes to the response hub
    and whose payload [data] is a response for [requestId]. *)
Definition response_event (proc : Process) (req : Request)
    (requestId : string) (data : value) : Prop :=
  header req "ce-type" = "azure.webpubsub.user.message"
  ∧ or_else (header req "ce-hub") (hubFromSource (header req "ce-source"))
    = RESPONSE_HUB proc
  ∧ parseJSON (Some (JStr (text req))) = data
  ∧ is_object data = true
  ∧ is_string "response" (get "type" data) = true
  ∧ get "requestId" data = Some (JStr requestId).

(** No path is left that could settle promise [p]: it has received no
    call, and neither an armed timer nor an entry of the table holds it. *)
Definition orphan (p : nat) (st : State) : Prop :=
  promises st !! p = Some []
  ∧ (∀ t cb, timers st !! t = Some cb → timer_reject cb ≠ p)
  ∧ (∀ rid e, pending st !! rid = Some e → resolve e ≠ p).

(** *** The router, and what the statements about whole runs need *)

(** 404 JSON response. *)
Definition notFound : Response := json (error_body "Not Found") 404.

(** The [fetch] function given to [Bun.serve]; the arguments after the
    request are the outcomes the handlers take. *)
Definition fetch (proc : Process) (st : State) (req : Request) (uuid : string)
    (publish_ok : bool) (token : TokenOutcome) : State * InvokeResult :=
  if String.eqb (method req) "GET" && String.eqb (pathname req) "/health"
  then (st, Replied (json (JObj [("status", JStr "ok")]) 200))
  else if String.eqb (method req) "POST" && String.eqb (pathname req) "/auth"
  then (st, Replied (handleAuth proc req token))
  else if String.eqb (method req) "POST" && String.eqb (pathname req) "/init"
  then match handleInit proc st req with
       | (st', Some r) => (st', Replied r)
       | (st', None) => (st', Threw)
       end
  else if String.eqb (method req) "POST" && String.eqb (pathname req) "/invoke"
  then handleInvoke st req uuid publish_ok
  else if String.eqb (method req) "POST" && String.eqb (pathname req) "/events"
  then let '(st', r) := handleEvents proc st req in (st', Replied r)
  else (st, Replied notFound).

(** [req] is a webhook call that [handleEvents] routes to the system hub and
    whose payload is the init announcement of [clientId]. *)
Definition system_event (proc : Process) (req : Request) (clientId : string) : Prop :=
  header req "ce-type" = "azure.webpubsub.user.message"
  ∧ or_else (header req "ce-hub") (hubFromSource (header req "ce-source")) = SYSTEM_HUB
  ∧ is_object (parseJSON (Some (JStr (text req)))) = true
  ∧ is_string "init" (get "type" (parseJSON (Some (JStr (text req))))) = true
  ∧ get "clientId" (parseJSON (Some (JStr (text req)))) = Some (JStr clientId).

(** The event announces worker [clientId]: a POST /init with that clientId
    in its body, or an init announcement on the system hub. *)
Definition announces (proc : Process) (clientId : string) (ev : Event) : Prop :=
  match ev with
  | EvInit req => body_clientId req = clientId
  | EvEvents req => system_event proc req clientId
  | _ => False
  end.

End Handlers.

(** A sequence of [setReady] calls on a store; [None] when one throws. *)
Fixpoint setReady_all (ops : list (string * bool)) (s : ReadyStore)
  : option ReadyStore :=
  match ops with
  | [] => Some s
  | (clientId, ready) :: ops' =>
      match setReady s clientId ready with
      | Some s' => setReady_all ops' s'
      | None => None
      end
  end.

(** The handles in [l] elapse one after the other. *)
Definition fire_all (l : list nat) (st : State) : State :=
  fold_left (λ s t, on_timeout t s) l st.

(** Every armed timer elapses. *)
Definition drain (st : State) : State :=
  fire_all (map fst (map_to_list (timers st))) st.

(** *** Concrete instances and requests, on the runtime of the examples *)

Definition plain_process : Process :=
  {| env := ∅; randomUUID := "1b4e28ba"; ioredis := false |}.

Definition post (path : string) (params : list (string * string))
    (hs : gmap string string) (b : string) (parsed : option JSON) : Request :=
  {| method := "POST"; pathname := path; searchParams := params;
     headers := hs; text := b; json_body := parsed |}.

(** A POST whose body is the text of [v]. *)
Definition post_json (path : string) (params : list (string * string))
    (hs : gmap string string) (v : JSON) : Request :=
  post path params hs (stringify v) (Some v).

Definition init_request (clientId : string) : Request :=
  post_json "/init" [] ∅ (JObj [("clientId", JStr clientId)]).

Definition invoke_request (clientId path : string) : Request :=
  post "/invoke" [("clientId", clientId); ("path", path)] ∅ EmptyString None.

Definition response_request (proc : Process) (data : JSON) : Request :=
  post_json "/events" []
    (<["ce-type" := "azure.webpubsub.user.message"]>
       (<["ce-hub" := RESPONSE_HUB proc]> ∅))
    data.

Definition hello_response : JSON :=
  JObj [("type", JStr "response"); ("requestId", JStr "r1");
        ("status", JNum (int 200)); ("body", JObj [("msg", JStr "hello")])].

(** Worker [w1] has announced itself and one invocation for it, [r1], is
    waiting for its response. *)
Definition waiting_state : State :=
  run (rt := example_runtime) plain_process (initial plain_process ∅ false)
    [EvInit (init_request "w1"); EvInvoke (invoke_request "w1" "/hello") "r1" true].

(** A deployment that sets request-timeout variables and an API key, and
    restricts the workers. *)
Definition tuned_process : Process :=
  {| env := <["REQUEST_TIMEOUT_MS" := "15000"]>
              (<["REQUEST_TIMEOUT" := "15"]>
                 (<["TIMEOUT_MS" := "15000"]>
                    (<["AUTH_TOKEN" := "s3cret"]>
                       (<["ALLOWED_CLIENT_IDS" := "w1, w3"]> ∅))));
     randomUUID := "9c5b94b1"; ioredis := false |}.

(** A deployment whose allow-list is written with no-break spaces (U+00A0)
    around the second name. *)
Definition nbsp : string := String "194" (String "160" EmptyString).

Definition spaced_process : Process :=
  {| env := <["ALLOWED_CLIENT_IDS" := "w1," +:+ nbsp +:+ "w3" +:+ nbsp]> ∅;
     randomUUID := "5f0c2d7e"; ioredis := false |}.

(** The delay of the timer that guards the entry of [requestId]. *)
Definition entry_delay (st : State) (requestId : string) : option Z :=
  match pending st !! requestId with
  | Some e => timer_delay <$> timers st !! timer e
  | None => None
  end.

Definition system_request (clientId : string) : Request :=
  post_json "/events" []
    (<["ce-type" := "azure.webpubsub.user.message"]> (<["ce-hub" := "system"]> ∅))
    (JObj [("type", JStr "init"); ("clientId", JStr clientId)]).

End ProxyServer.

(** ** The forwarder in the worker process *)

Module ProxyClient.
Import Json Js.

Record RequestEnvelope := {
  req_requestId : string;
  req_method : string;
  req_path : string;
  req_body : option JSON;
}.

Record ResponseEnvelope := {
  res_requestId : value;
  res_status : number;
  res_body : JSON;
}.

(** The envelopes as the objects that are serialized. A property whose
    value is [undefined] is left out by [JSON.stringify]. *)
Definition optional_field (k : string) (v : value) : list (string * JSON) :=
  match v with
  | Some x => [(k, x)]
  | None => []
  end.

Definition request_value (e : RequestEnvelope) : JSON :=
  JObj ([("type", JStr "request"); ("requestId", JStr (req_requestId e));
         ("method", JStr (req_method e)); ("path", JStr (req_path e))]
        ++ optional_field "body" (req_body e)).

Definition response_value (e : ResponseEnvelope) : JSON :=
  JObj ([("type", JStr "response")] ++ optional_field "requestId" (res_requestId e)
        ++ [("status", JNum (res_status e)); ("body", res_body e)]).

(** Reading an object back at the declared types. *)
Definition as_request (v : value) : option RequestEnvelope :=
  if is_string "request" (get "type" v) then
    match get "requestId" v, get "method" v, get "path" v with
    | Some (JStr i), Some (JStr m), Some (JStr p) =>
        Some {| req_requestId := i; req_method := m; req_path := p;
                req_body := get "body" v |}
    | _, _, _ => None
    end
  else None.

Definition as_response (v : value) : option ResponseEnvelope :=
  if is_string "response" (get "type" v) then
    match get "status" v, get "body" v with
    | Some (JNum s), Some b =>
        Some {| res_requestId := get "requestId" v; res_status := s; res_body := b |}
    | _, _ => None
    end
  else None.

(** Join two URL parts without duplicating or missing slashes. *)
Definition joinUrl (base path : string) : string :=
  if negb (endsWith base "/") && negb (startsWith path "/") then base +:+ "/" +:+ path
  else if endsWith base "/" && startsWith path "/" then base +:+ slice1 path
  else base +:+ path.

(** What the local HTTP call gives back. [resp_json] is the outcome of
    [resp.json()] and [resp_text] that of [resp.text()], each when it is the
    first to read the body; [resp_body_used] is the TypeError that
    [resp.text()] raises when [resp.json()] has read the body before it. *)
Record FetchResponse := {
  resp_status : Z;
  resp_content_type : string;
  resp_json : Completion JSON;
  resp_text : Completion string;
  resp_body_used : JsError;
}.

(** [String(err?.message || err || 'Unknown error')] for an [Error]. *)
Definition diagnostic (err : JsError) : string :=
  if nonempty (err_message err) then err_message err else err_name err.

Definition TypeError (message : string) : JsError :=
  {| err_name := "TypeError"; err_message := message |}.

(** The HTTP call that [forwardToLocal] issues. *)
Record LocalCall := {
  call_url : string;
  call_method : string;
  call_content_type : option string;
  call_body : option string;
}.

Section Forwarder.
Context {rt : Runtime}.
Variable LOCAL_API_URL : string.

(** The call built from the envelope. Types are erased at run time, so
    the argument is the payload as it was received: the method calls on
    [path] and [method] throw when these are not strings. *)
Definition local_call (reqMsg : value) : Completion LocalCall :=
  match get "path" reqMsg with
  | Some (JStr path) =>
      let url := joinUrl LOCAL_API_URL path in
      let meth :=
        if truthy (get "method" reqMsg) then
          match get "method" reqMsg with
          | Some (JStr m) => Returned (toUpperCase m)
          | _ => Thrown (TypeError "toUpperCase is not a function")
          end
        else Returned "GET" in
      match meth with
      | Returned m =>
          let hasBody :=
            match get "body" reqMsg with
            | None | Some JNull => false
            | Some _ => negb (String.eqb m "GET") && negb (String.eqb m "HEAD")
            end in
          Returned
            {| call_url := url; call_method := m;
               call_content_type := if hasBody then Some "application/json" else None;
               call_body :=
                 if hasBody then
                   match get "body" reqMsg with
                   | Some b => Some (JSON_stringify b)
                   | None => None
                   end
                 else None |}
      | Thrown e => Thrown e
      end
  | _ => Thrown (TypeError "startsWith is not a function")
  end.

(** The body of the response as the [try] block reads it. When
    [resp.json()] throws, the inner [catch] calls [resp.text()] on the body
    that [resp.json()] has consumed: that call throws, and the error goes to
    the outer [catch]. *)
Definition read_body (resp : FetchResponse) : Completion JSON :=
  if includes (resp_content_type resp) "application/json" then
    match resp_json resp with
    | Returned v => Returned v
    | Thrown _ => Thrown (resp_body_used resp)
    end
  else
    match resp_text resp with
    | Returned s => Returned (JStr s)
    | Thrown e => Thrown e
    end.

Definition error_response (reqMsg : value) (err : JsError) : ResponseEnvelope :=
  {| res_requestId := get "requestId" reqMsg; res_status := int 500;
     res_body := JObj [("error", JStr (diagnostic err))] |}.

(** Forward a request to the local API and wrap the result in a response
    envelope. [fetched] is the outcome of the HTTP call. *)
Definition forwardToLocal (reqMsg : value) (fetched : Completion FetchResponse)
  : Completion ResponseEnvelope :=
  match local_call reqMsg with
  | Thrown e => Thrown e
  | Returned _ =>
      match fetched with
      | Returned resp =>
          match read_body resp with
          | Returned b =>
              Returned {| res_requestId := get "requestId" reqMsg;
                          res_status := int (resp_status resp); res_body := b |}
          | Thrown err => Returned (error_response reqMsg err)
          end
      | Thrown err => Returned (error_response reqMsg err)
      end
  end.

Definition outbound (response : ResponseEnvelope) : JSON :=
  JObj [("type", JStr "sendToGroup"); ("group", JStr "server");
        ("dataType", JStr "json"); ("data", response_value response)].

(** The payload of a frame: [msg.data], parsed when the frame says that it
    is text and the parse succeeds. *)
Definition frame_payload (msg : value) : value :=
  match get "dataType" msg, get "data" msg with
  | Some (JStr "text"), Some (JStr s) =>
      match JSON_parse s with
      | Some v => Some v
      | None => Some (JStr s)
      end
  | _, d => d
  end.

(** Process an inbound Web PubSub message and, if it is a request, send a
    response. The result is the list of frames handed to [ws.send]. *)
Definition onMessage (data : string) (fetched : Completion FetchResponse)
  : list string :=
  match JSON_parse data with
  | None => []
  | Some m =>
      let msg := Some m in
      if is_string "system" (get "type" msg) && is_string "connected" (get "event" msg)
      then []
      else if is_string "ack" (get "type" msg) then []
      else if is_string "message" (get "type" msg) then
        let payload := frame_payload msg in
        if truthy payload && JsType_eqb (typeof payload) TObject
           && is_string "request" (get "type" payload)
        then
          match forwardToLocal payload fetched with
          | Returned response => [JSON_stringify (outbound response)]
          | Thrown _ => []
          end
        else []
      else []
  end.
End Forwarder.

(** Envelopes whose payloads are values of the fragment. *)
Definition plain_request (e : RequestEnvelope) : Prop :=
  match req_body e with
  | Some b => plain b
  | None => True
  end.

Definition plain_response (r : ResponseEnvelope) : Prop :=
  safe_integer (res_status r) = true
  ∧ plain (res_body r)
  ∧ match res_requestId r with
    | Some v => plain v
    | None => True
    end.

(** A frame of the subscription that carries [payload] as its data. *)
Definition message_frame (m : JSON) (payload : JSON) : Prop :=
  get "type" (Some m) = Some (JStr "message") ∧ get "data" (Some m) = Some payload.

Definition hello_request : RequestEnvelope :=
  {| req_requestId := "r1"; req_method := "GET"; req_path := "/hello";
     req_body := Some JNull |}.

Definition hello_frame : JSON :=
  JObj [("type", JStr "message"); ("from", JStr "group"); ("dataType", JStr "json");
        ("data", request_value hello_request)].

Definition refused : JsError :=
  {| err_name := "TypeError"; err_message := "fetch failed" |}.

(** The test that [onMessage] makes on a payload before it forwards it. *)
Definition is_object_request (payload : value) : bool :=
  truthy payload && JsType_eqb (typeof payload) TObject
  && is_string "request" (get "type" payload).

End ProxyClient.

(** ** The codec reads back what it prints *)

Section CodecFacts.
Import Json.
Local Arguments String.append : simpl nomatch.

Lemma hex_value_digit (k : nat) : (k < 16)%nat → hex_value (hex_digit k) = Some k.
Proof. intros H. do 16 (destruct k as [|k]; [reflexivity|]). lia. Qed.

Lemma parse_unicode_escape (h3 h4 : ascii) (t : string) :
  parse_string_body
    (String backslash (String "u" (String "0" (String "0" (String h3 (String h4 t))))))
  = match hex_value h3, hex_value h4 with
    | Some c3, Some d =>
        if (c3 * 16 + d <? 128)%nat then
          match parse_string_body t with
          | Some (s, rest) => Some (String (ascii_of_nat (c3 * 16 + d)) s, rest)
          | None => None
          end
        else None
    | _, _ => None
    end.
Proof.
  cbn [parse_string_body]. change (hex_value "0") with (Some 0%nat).
  rewrite Ascii.eqb_refl. change (Ascii.eqb backslash dquote) with false. cbv iota.
  destruct (hex_value h3) as [c3|]; [|reflexivity].
  destruct (hex_value h4) as [d|]; reflexivity.
Qed.

Lemma escape_char_step (c : ascii) (t : string) :
  parse_string_body (escape_char c +:+ t)
  = match parse_string_body t with
    | Some (s, rest) => Some (String c s, rest)
    | None => None
    end.
Proof.
  unfold escape_char.
  repeat match goal with
  | |- context [Ascii.eqb c ?d] =>
      destruct (Ascii.eqb_spec c d) as [->|?]; [reflexivity|]
  end.
  destruct (Nat.ltb_spec (nat_of_ascii c) 32) as [Hlt|Hge].
  - cbn [String.append]. rewrite parse_unicode_escape.
    rewrite !hex_value_digit
      by (try apply Nat.mod_upper_bound; try apply Nat.Div0.div_lt_upper_bound; lia).
    rewrite (Nat.mul_comm _ 16), <- Nat.div_mod_eq, ascii_nat_embedding.
    destruct (Nat.ltb_spec (nat_of_ascii c) 128); [reflexivity | lia].
  - cbn [String.append parse_string_body].
    destruct (Ascii.eqb_spec c dquote); [congruence|].
    destruct (Ascii.eqb_spec c backslash); [congruence|].
    destruct (Nat.ltb_spec (nat_of_ascii c) 32); [lia | reflexivity].
Qed.

Lemma string_app_assoc (a b c : string) : (a +:+ b) +:+ c = a +:+ (b +:+ c).
Proof. induction a as [|x a IH]; cbn [String.append]; [reflexivity | by rewrite IH]. Qed.

Lemma string_body_roundtrip (s rest : string) :
  parse_string_body (quote_body s +:+ String dquote rest) = Some (s, rest).
Proof.
  induction s as [|c s IH]; [reflexivity|].
  cbn [quote_body]. rewrite string_app_assoc, escape_char_step, IH. reflexivity.
Qed.

Lemma quote_roundtrip (s rest : string) :
  parse_string_body (quote_body s +:+ String dquote EmptyString +:+ rest) = Some (s, rest).
Proof. apply string_body_roundtrip. Qed.

Lemma read_digits_stop (rest : string) :
  continues_number rest = false → read_digits rest = (Nil, rest).
Proof.
  destruct rest as [|c r]; [reflexivity|]. cbn.
  destruct (digit_of c); [discriminate | reflexivity].
Qed.

Lemma read_digits_print (u : uint) (rest : string) :
  continues_number rest = false →
  read_digits (NilEmpty.string_of_uint u +:+ rest) = (u, rest).
Proof.
  intros Hrest. induction u; cbn; rewrite ?IHu; auto using read_digits_stop.
Qed.

Lemma to_uint_normal (p : positive) : unorm (Pos.to_uint p) = Pos.to_uint p.
Proof.
  change (Pos.to_uint p) with (N.to_uint (Npos p)).
  rewrite <- (DecimalN.Unsigned.of_to (Npos p)) at 2.
  symmetry. apply DecimalN.Unsigned.to_of.
Qed.

Lemma to_uint_head (p : positive) (u : uint) : Pos.to_uint p ≠ D0 u.
Proof.
  intros H. pose proof (to_uint_normal p) as Hn. rewrite H in Hn.
  rewrite unorm_D0 in Hn.
  destruct (uint_eq_dec (nzhead u) Nil) as [Hz|Hz].
  - apply unorm_0 in Hz. rewrite Hz in Hn. injection Hn as <-.
    apply (DecimalPos.Unsigned.to_uint_nonzero p H).
  - rewrite (unorm_nzhead _ Hz) in Hn. exact (nzhead_nonzero _ _ Hn).
Qed.

Lemma parse_unsigned_print (p : positive) (rest : string) :
  continues_number rest = false →
  parse_unsigned (NilEmpty.string_of_uint (Pos.to_uint p) +:+ rest)
  = Some (Npos p, rest).
Proof.
  intros Hrest. unfold parse_unsigned. rewrite (read_digits_print _ _ Hrest).
  pose proof (DecimalPos.Unsigned.to_uint_nonnil p) as Hnil.
  pose proof (to_uint_head p) as Hhead.
  pose proof (DecimalN.Unsigned.of_to (Npos p)) as Hof.
  change (N.to_uint (Npos p)) with (Pos.to_uint p) in Hof.
  destruct (Pos.to_uint p) eqn:E; rewrite ?Hrest, ?Hof; try reflexivity.
  - congruence.
  - exfalso. eapply Hhead. reflexivity.
Qed.


Lemma parse_number_print (n : Z) (rest : string) :
  continues_number rest = false →
  parse_number (print_Z n +:+ rest) = Some (n, rest).
Proof.
  intros Hrest. destruct n as [|p|p]; cbn [print_Z].
  - cbn. unfold parse_unsigned. cbn. rewrite (read_digits_stop _ Hrest), Hrest.
    reflexivity.
  - unfold parse_number.
    pose proof (parse_unsigned_print p rest Hrest) as Hp.
    destruct (NilEmpty.string_of_uint (Pos.to_uint p) +:+ rest) as [|c r] eqn:E.
    + rewrite Hp. reflexivity.
    + destruct (Ascii.eqb_spec c "-") as [->|Hc].
      * exfalso. unfold parse_unsigned in Hp. cbn in Hp. discriminate.
      * rewrite Hp.
        destruct c as [[] [] [] [] [] [] [] []]; try reflexivity. congruence.
  - cbn. rewrite (parse_unsigned_print p rest Hrest). reflexivity.
Qed.

Lemma safe_integer_int (n : number) :
  safe_integer n = true → ∃ z, n = int z ∧ Z.abs z < 2 ^ 53.
Proof.
  destruct n as [z [|e]| | |]; try discriminate. cbn [safe_integer].
  intros H%Z.ltb_lt. by exists z.
Qed.

Lemma fragment_arr (l : list JSON) :
  fragment (JArr l) = true ↔ Forall (λ x, fragment x = true) l.
Proof.
  cbn. induction l as [|x l IH]; [by split; [constructor|]|].
  rewrite Forall_cons, andb_true_iff, <- IH. reflexivity.
Qed.

Lemma fragment_obj (l : list (string * JSON)) :
  fragment (JObj l) = true
  ↔ Forall (λ kv, index_key kv.1 = false ∧ fragment kv.2 = true) l.
Proof.
  cbn. induction l as [|[k x] l IH]; [by split; [constructor|]|].
  rewrite Forall_cons, !andb_true_iff, negb_true_iff, <- IH. cbn. tauto.
Qed.

Lemma number_start_dispatch (c : ascii) :
  number_start c = true →
  is_ws c = false ∧ Ascii.eqb c "{" = false ∧ Ascii.eqb c "[" = false ∧
  Ascii.eqb c "t" = false ∧ Ascii.eqb c "f" = false ∧ Ascii.eqb c "n" = false ∧
  Ascii.eqb c dquote = false ∧ Ascii.eqb c "]" = false.
Proof.
  destruct c as [[] [] [] [] [] [] [] []]; cbn; intros H;
    first [discriminate H | repeat split].
Qed.

Lemma print_uint_head (u : uint) :
  u ≠ Nil → ∃ c r, NilEmpty.string_of_uint u = String c r ∧ number_start c = true.
Proof. destruct u; [congruence | ..]; intros _; cbn; eauto. Qed.

Lemma print_Z_head (n : Z) :
  ∃ c r, print_Z n = String c r ∧ number_start c = true.
Proof.
  destruct n as [|p|p]; cbn [print_Z].
  - eexists _, _. split; reflexivity.
  - apply print_uint_head, DecimalPos.Unsigned.to_uint_nonnil.
  - eexists _, _. split; reflexivity.
Qed.

Lemma stringify_start (v : JSON) (rest : string) :
  fragment v = true → value_start (stringify v +:+ rest) = true.
Proof.
  destruct v as [|[]|n|s|l|l]; try reflexivity.
  intros (z & -> & _)%safe_integer_int.
  cbn [stringify print_number int]. destruct (print_Z_head z) as (c & r & -> & Hc).
  apply number_start_dispatch in Hc as (Hws & _ & _ & _ & _ & _ & _ & Hb).
  cbn. by rewrite Hws, Hb.
Qed.

Lemma peek_start (c : ascii) (s : string) :
  value_start s = true → Ascii.eqb c "]" = true → peek c s = None.
Proof.
  destruct s as [|c' r]; [discriminate|]. cbn. intros H Hc.
  apply Ascii.eqb_eq in Hc as ->. unfold peek. cbn.
  destruct (is_ws c'); [discriminate|]. destruct (Ascii.eqb c' "]"); [discriminate|].
  reflexivity.
Qed.

Lemma size_arr (l : list JSON) : size (JArr l) = S (esize l).
Proof. reflexivity. Qed.

Lemma size_obj (l : list (string * JSON)) : size (JObj l) = S (msize l).
Proof. reflexivity. Qed.

Lemma stringify_arr (l : list JSON) :
  stringify (JArr l) = String "[" (stringify_elements l).
Proof. reflexivity. Qed.

Lemma stringify_obj (l : list (string * JSON)) :
  stringify (JObj l) = String "{" (stringify_members l).
Proof. reflexivity. Qed.

Lemma parse_value_on_value (k : nat) (x : JSON) (c : ascii) (rest : string) :
  reads_back x → (size x ≤ k)%nat → continues_number (String c rest) = false →
  parse_value k ((stringify x +:+ String c EmptyString) +:+ rest)
  = Some (x, String c rest).
Proof. intros Hx Hk Hc. rewrite string_app_assoc. by apply Hx. Qed.

Lemma elements_read_back (l : list JSON) :
  Forall reads_back l → l ≠ [] →
  ∀ fuel rest, (esize l ≤ fuel)%nat →
    parse_elements fuel (stringify_elements l +:+ rest) = Some (l, rest).
Proof.
  induction 1 as [|x l Hx Hl IH]; [congruence|]. intros _ fuel rest Hfuel.
  destruct fuel as [|k]; [cbn in Hfuel; lia|].
  cbn [esize fold_right] in Hfuel. fold (esize l) in Hfuel.
  destruct l as [|y l'].
  - cbn [stringify_elements parse_elements].
    rewrite (parse_value_on_value k x "]" rest) by (done || lia).
    reflexivity.
  - cbn [parse_elements].
    change (stringify_elements (x :: y :: l'))
      with (stringify x +:+ String "," (stringify_elements (y :: l'))).
    rewrite string_app_assoc, Hx by (done || lia).
    cbn. rewrite IH by (done || lia). reflexivity.
Qed.

Lemma members_read_back (l : list (string * JSON)) :
  Forall (λ kv, reads_back kv.2) l → l ≠ [] →
  ∀ fuel rest, (msize l ≤ fuel)%nat →
    parse_members fuel (stringify_members l +:+ rest) = Some (l, rest).
Proof.
  induction 1 as [|[key x] l Hx Hl IH]; [congruence|]. intros _ fuel rest Hfuel.
  destruct fuel as [|k]; [cbn in Hfuel; lia|].
  cbn [msize fold_right] in Hfuel. fold (msize l) in Hfuel. cbn [snd] in *.
  destruct l as [|y l'].
  - cbn [stringify_members parse_members]. unfold quote.
    cbn [String.append]. unfold peek at 1. cbn [skip_ws is_ws dquote].
    rewrite Ascii.eqb_refl.
    rewrite !string_app_assoc. cbn [String.append]. rewrite string_body_roundtrip.
    unfold peek at 1. cbn [skip_ws is_ws]. rewrite Ascii.eqb_refl.
    cbn [msize fold_right] in Hfuel.
    rewrite (parse_value_on_value k x "}" rest) by (done || lia). reflexivity.
  - cbn [parse_members].
    change (stringify_members ((key, x) :: y :: l'))
      with (quote key +:+ String ":"
              (stringify x +:+ String "," (stringify_members (y :: l')))).
    unfold quote. cbn [String.append]. unfold peek at 1. cbn [skip_ws is_ws dquote].
    rewrite Ascii.eqb_refl.
    rewrite !string_app_assoc. cbn [String.append]. rewrite string_body_roundtrip.
    unfold peek at 1. cbn [skip_ws is_ws]. rewrite Ascii.eqb_refl.
    rewrite string_app_assoc, Hx by (done || lia). cbn.
    rewrite IH by (done || lia). reflexivity.
Qed.


Lemma obj_set_fresh (k : string) (v : JSON) (acc : list (string * JSON)) :
  k ∉ map fst acc → obj_set k v acc = acc ++ [(k, v)].
Proof.
  induction acc as [|[k' v'] acc IH]; [reflexivity|]. cbn. intros Hk.
  apply not_elem_of_cons in Hk as [Hne Hk].
  destruct (String.eqb_spec k k'); [congruence|]. by rewrite IH.
Qed.

Lemma build_object_nodup (l acc : list (string * JSON)) :
  NoDup (map fst (acc ++ l)) →
  fold_left (λ a kv, obj_set kv.1 kv.2 a) l acc = acc ++ l.
Proof.
  revert acc. induction l as [|[k v] l IH]; intros acc Hnd; cbn.
  - by rewrite app_nil_r.
  - rewrite obj_set_fresh.
    + rewrite IH; rewrite <- app_assoc; [reflexivity | exact Hnd].
    + rewrite map_app in Hnd. apply NoDup_app in Hnd as (_ & Hdisj & _).
      intros Hin. apply (Hdisj k Hin). cbn. left.
Qed.

Lemma wf_arr (l : list JSON) : wf (JArr l) ↔ Forall wf l.
Proof.
  cbn. induction l as [|x l IH]; [by split; [constructor|]|].
  rewrite Forall_cons, <- IH. reflexivity.
Qed.

Lemma wf_obj (l : list (string * JSON)) :
  wf (JObj l) ↔ NoDup (map fst l) ∧ Forall (λ kv, wf kv.2) l.
Proof.
  cbn. apply and_iff_compat_l.
  induction l as [|x l IH]; [by split; [constructor|]|].
  rewrite Forall_cons, <- IH. reflexivity.
Qed.

Lemma value_reads_back (v : JSON) : plain v → reads_back v.
Proof.
  induction v as [| b | n | s | l IH | l IH] using JSON_nested_ind;
    intros [Hwf Hfr] fuel rest Hfuel Hrest;
    (destruct fuel as [|k]; [cbn in Hfuel; lia|]).
  - reflexivity.
  - destruct b; reflexivity.
  - apply safe_integer_int in Hfr as (z & -> & _).
    cbn [stringify print_number int].
    pose proof (parse_number_print z rest Hrest) as Hn.
    destruct (print_Z_head z) as (c & r & E & Hc). rewrite E in *.
    apply number_start_dispatch in Hc as (Hws & H1 & H2 & H3 & H4 & H5 & H6 & _).
    cbn [String.append parse_value skip_ws] in *.
    rewrite Hws, H1, H2, H3, H4, H5, H6, Hn. reflexivity.
  - cbn [stringify parse_value]. unfold quote. cbn [String.append skip_ws is_ws dquote].
    rewrite string_app_assoc. cbn. rewrite string_body_roundtrip. reflexivity.
  - rewrite stringify_arr, size_arr in *. apply wf_arr in Hwf.
    apply fragment_arr in Hfr.
    cbn [String.append parse_value skip_ws is_ws]. cbn [Ascii.eqb Bool.eqb].
    destruct l as [|x l']; [reflexivity|].
    rewrite peek_start; [| | reflexivity].
    + rewrite elements_read_back; [reflexivity | | done | lia].
      rewrite Forall_forall in IH, Hwf, Hfr |- *. intros y Hy.
      apply IH; [done|]. split; auto.
    + apply Forall_cons in Hfr as [Hx _].
      destruct l'; cbn [stringify_elements]; rewrite string_app_assoc;
        by apply stringify_start.
  - rewrite stringify_obj, size_obj in *. apply wf_obj in Hwf as [Hnd Hwf].
    apply fragment_obj in Hfr.
    cbn [String.append parse_value skip_ws is_ws]. cbn [Ascii.eqb Bool.eqb].
    destruct l as [|[key x] l']; [reflexivity|].
    assert (peek "}" (stringify_members ((key, x) :: l') +:+ rest) = None) as ->.
    { destruct l'; reflexivity. }
    rewrite members_read_back; [| | done | lia].
    + unfold build_object. rewrite build_object_nodup; [reflexivity | exact Hnd].
    + rewrite Forall_forall in IH, Hwf, Hfr |- *. intros y Hy.
      apply IH; [done|]. split; [by auto|]. by apply Hfr.
Qed.

Lemma string_length_app (a b : string) :
  String.length (a +:+ b) = (String.length a + String.length b)%nat.
Proof. induction a as [|c a IH]; cbn [String.append String.length]; lia. Qed.

Lemma string_app_nil_r (a : string) : a +:+ EmptyString = a.
Proof. induction a as [|c a IH]; cbn [String.append]; congruence. Qed.

Lemma size_le_length (v : JSON) :
  fragment v = true → (size v ≤ String.length (stringify v))%nat.
Proof.
  induction v as [| b | n | s | l IH | l IH] using JSON_nested_ind; intros Hfr.
  - cbn; lia.
  - destruct b; cbn; lia.
  - apply safe_integer_int in Hfr as (z & -> & _).
    cbn [stringify size print_number int].
    destruct (print_Z_head z) as (c & r & -> & _). cbn; lia.
  - cbn; lia.
  - rewrite stringify_arr, size_arr. cbn [String.length]. apply le_n_S.
    apply fragment_arr in Hfr.
    induction IH as [|x l' Hx Hl IHl]; [cbn; lia|].
    apply Forall_cons in Hfr as [Hfx Hfr]. specialize (Hx Hfx). specialize (IHl Hfr).
    cbn [esize fold_right]. fold (esize l').
    destruct l' as [|y l''].
    + cbn [stringify_elements]. rewrite string_length_app. cbn. lia.
    + change (stringify_elements (x :: y :: l''))
        with (stringify x +:+ String "," (stringify_elements (y :: l''))).
      rewrite string_length_app. cbn [String.length]. lia.
  - rewrite stringify_obj, size_obj. cbn [String.length]. apply le_n_S.
    apply fragment_obj in Hfr.
    induction IH as [|[key x] l' Hx Hl IHl]; [cbn; lia|].
    apply Forall_cons in Hfr as [[_ Hfx] Hfr]. specialize (Hx Hfx).
    specialize (IHl Hfr).
    cbn [msize fold_right snd] in *. fold (msize l').
    destruct l' as [|y l''].
    + cbn [stringify_members]. rewrite !string_length_app. cbn [String.length].
      rewrite string_length_app. cbn. lia.
    + change (stringify_members ((key, x) :: y :: l''))
        with (quote key +:+ String ":"
                (stringify x +:+ String "," (stringify_members (y :: l'')))).
      rewrite string_length_app. cbn [String.length].
      rewrite string_length_app. cbn [String.length]. lia.
Qed.

(** On the fragment, reading what was printed gives the value back. *)
Lemma parse_stringify (v : JSON) : plain v → parse (stringify v) = Some v.
Proof.
  intros Hv. unfold parse.
  rewrite <- (string_app_nil_r (stringify v)) at 2.
  rewrite (value_reads_back v Hv); [cbn; by rewrite (proj2 Hv) | | reflexivity].
  pose proof (size_le_length v (proj2 Hv)). lia.
Qed.

End CodecFacts.

(** ** The pending table: invariant of an instance *)

Section PendingTable.
Import Json Js ProxyServer.
Context {rt : Runtime}.

Lemma Inv_initial proc db connected : Inv (initial proc db connected).
Proof. split; cbn; intros *; rewrite ?lookup_empty; congruence. Qed.

Lemma Inv_publish clientId data st : Inv st → Inv (publish clientId data st).
Proof. intros [H1 H2 H3 H4]. split; assumption. Qed.

Lemma Inv_set_readyStore s st : Inv st → Inv (set_readyStore s st).
Proof. intros [H1 H2 H3 H4]. split; assumption. Qed.

Lemma Inv_awaitResponse requestId timeoutMs st :
  Inv st → Inv (awaitResponse requestId timeoutMs st).1.
Proof.
  intros [H1 H2 H3 H4]. split; cbn.
  - intros rid e. rewrite lookup_insert. case_decide as Hrid.
    + intros [= <-]. subst rid. cbn. rewrite lookup_insert_eq. eauto.
    + intros He. destruct (H1 _ _ He) as (cb & Ht & Hp & Hr).
      exists cb. rewrite lookup_insert_ne; [done|].
      apply H2 in Ht as [_ Ht]. lia.
  - intros t cb. rewrite lookup_insert. case_decide as Ht.
    + intros [= <-]. cbn. rewrite lookup_insert_eq. split; [done | lia].
    + intros Hcb. destruct (H2 _ _ Hcb) as [Hp Hlt]. split; [|lia].
      rewrite lookup_insert_ne; [done|]. apply H4 in Hp as [_ Hp]. lia.
  - intros t1 t2 cb1 cb2. rewrite !lookup_insert.
    destruct (decide (next_timer st = t1)) as [<-|N1],
             (decide (next_timer st = t2)) as [<-|N2]; try done.
    + intros [= <-] Hcb Heq. cbn in Heq.
      apply H2 in Hcb as [Hcb _]. apply H4 in Hcb as [_ Hcb]. lia.
    + intros Hcb [= <-] Heq. cbn in Heq.
      apply H2 in Hcb as [Hcb _]. apply H4 in Hcb as [_ Hcb]. lia.
    + apply H3.
  - intros p calls. rewrite lookup_insert. case_decide.
    + intros [= <-]. cbn. lia.
    + intros Hp. apply H4 in Hp. lia.
Qed.

(** Taking an entry out with its timer, without a call to its promise. *)
Lemma Inv_remove rid e st :
  Inv st → pending st !! rid = Some e →
  Inv (set_pending (delete rid) (clearTimeout (timer e) st)).
Proof.
  intros [H1 H2 H3 H4] He. split; cbn.
  - intros rid' e'. rewrite lookup_delete. case_decide as Hrid; [done|].
    intros He'. destruct (H1 _ _ He') as (cb & Ht & Hp & Hr).
    exists cb. rewrite lookup_delete_ne; [done|].
    intros Heq. destruct (H1 _ _ He) as (cb0 & Ht0 & _ & Hr0).
    rewrite Heq in Ht0. congruence.
  - intros t cb. rewrite lookup_delete. case_decide; [done|]. apply H2.
  - intros t1 t2 cb1 cb2. rewrite !lookup_delete.
    repeat case_decide; try done. apply H3.
  - apply H4.
Qed.

(** A call to a promise that has no armed timer any more. *)
Lemma Inv_settle p o st :
  Inv st → promises st !! p = Some [] →
  (∀ t cb, timers st !! t = Some cb → timer_reject cb ≠ p) →
  Inv (settle p o st).
Proof.
  intros [H1 H2 H3 H4] Hp Hfree. split; cbn.
  - apply H1.
  - intros t cb Hcb. destruct (H2 _ _ Hcb) as [Hq Hlt]. split; [|done].
    rewrite lookup_alter_ne; [done|]. intros ->. by eapply Hfree.
  - apply H3.
  - intros q calls. rewrite lookup_alter. case_decide as Hq.
    + subst q. rewrite Hp. cbn. intros [= <-]. cbn.
      apply H4 in Hp as [_ Hp]. lia.
    + apply H4.
Qed.

Lemma Inv_resolve rid e o st :
  Inv st → pending st !! rid = Some e →
  Inv (settle (resolve e) o (set_pending (delete rid) (clearTimeout (timer e) st))).
Proof.
  intros HI He. pose proof HI as [H1 H2 H3 H4].
  destruct (H1 _ _ He) as (cb & Ht & Hp & Hr).
  apply Inv_settle; [by apply Inv_remove | |]; cbn.
  - rewrite <- Hp. by apply H2 in Ht as [Ht _].
  - intros t cb'. rewrite lookup_delete. case_decide as Hne; [done|].
    intros Hcb' Heq. apply Hne. symmetry. eapply H3; [exact Hcb' | exact Ht | congruence].
Qed.

Lemma Inv_cancel requestId st : Inv st → Inv (cancel requestId st).
Proof.
  intros HI. unfold cancel. destruct (pending st !! requestId) eqn:He; [|done].
  by apply Inv_remove.
Qed.

Lemma Inv_on_timeout t st : Inv st → Inv (on_timeout t st).
Proof.
  intros HI. unfold on_timeout. destruct (timers st !! t) as [cb|] eqn:Ht; [|done].
  pose proof HI as [H1 H2 H3 H4]. unfold timeout_callback.
  apply Inv_settle; cbn.
  - split; cbn.
    + intros rid e. rewrite lookup_delete. case_decide as Hrid; [done|].
      intros He. destruct (H1 _ _ He) as (cb' & Ht' & Hp & Hr).
      exists cb'. rewrite lookup_delete_ne; [done|]. congruence.
    + intros t' cb'. rewrite lookup_delete. case_decide; [done|]. apply H2.
    + intros t1 t2 cb1 cb2. rewrite !lookup_delete.
      repeat case_decide; try done. apply H3.
    + apply H4.
  - by apply H2 in Ht as [Ht _].
  - intros t' cb'. rewrite lookup_delete. case_decide as Hne; [done|].
    intros Hcb' Heq. apply Hne. symmetry. eapply H3; [exact Hcb' | exact Ht | congruence].
Qed.

Lemma Inv_on_response data st : Inv st → Inv (on_response data st).
Proof.
  intros HI. unfold on_response.
  destruct (is_object data && is_string "response" (get "type" data)); [|done].
  destruct (string_of (get "requestId" data)) as [rid|]; [|done].
  destruct (pending st !! rid) as [e|] eqn:He; [|done].
  by apply Inv_resolve.
Qed.

Lemma Inv_on_system data st : Inv st → Inv (on_system data st).
Proof.
  intros HI. unfold on_system.
  destruct (is_object data && is_string "init" (get "type" data)); [|done].
  destruct (string_of (get "clientId" data)) as [cid|]; [|done].
  destruct (setReady (readyStore st) cid true); [|done].
  by apply Inv_set_readyStore.
Qed.

Lemma Inv_handleEvents proc req st : Inv st → Inv (handleEvents proc st req).1.
Proof.
  intros HI. unfold handleEvents. cbn.
  repeat case_match; auto using Inv_on_response, Inv_on_system.
Qed.

Lemma Inv_handleInvoke req uuid ok st : Inv st → Inv (handleInvoke st req uuid ok).1.
Proof.
  intros HI. unfold handleInvoke.
  destruct (readInvokeParams req) as [[clientId|] [path|]]; try done.
  destruct (isReady (readyStore st) clientId) as [[]|]; try done.
  pose proof (Inv_awaitResponse uuid default_timeoutMs st HI) as HA.
  destruct (awaitResponse uuid default_timeoutMs st) as [st1 p]. cbn in HA.
  destruct ok; cbn; auto using Inv_publish, Inv_cancel.
Qed.

Lemma Inv_handleInit proc req st : Inv st → Inv (handleInit proc st req).1.
Proof.
  intros HI. unfold handleInit. repeat case_match; cbn; auto using Inv_set_readyStore.
Qed.

Lemma Inv_step proc st ev : Inv st → Inv (step proc st ev).
Proof.
  intros HI. destruct ev; cbn [step].
  - by apply Inv_handleInvoke.
  - by apply Inv_handleEvents.
  - by apply Inv_handleInit.
  - by apply Inv_on_timeout.
  - destruct (readyStore st); auto using Inv_set_readyStore.
  - by apply Inv_cancel.
Qed.

Lemma Inv_run proc evs st : Inv st → Inv (run proc st evs).
Proof.
  revert st. induction evs as [|ev evs IH]; intros st HI; [done|].
  cbn. apply IH. by apply Inv_step.
Qed.

End PendingTable.

(** ** The two settlement paths *)

Section Settlement.
Import Json Js ProxyServer.
Context {rt : Runtime}.

Lemma handleEvents_response proc st req rid data :
  response_event proc req rid data →
  (handleEvents proc st req).1 =
  match pending st !! rid with
  | Some entry =>
      settle (resolve entry)
        (Resolved (response_status data) (response_body data))
        (set_pending (delete rid) (clearTimeout (timer entry) st))
  | None => st
  end.
Proof.
  intros (Hty & Hhub & Hdata & Hobj & Htype & Hrid).
  unfold handleEvents. cbn [fst]. rewrite Hty, Hhub, Hdata, !String.eqb_refl.
  cbn [andb]. unfold on_response. rewrite Hobj, Htype, Hrid. reflexivity.
Qed.

Lemma handleEvents_no_entry proc st req rid data :
  response_event proc req rid data → pending st !! rid = None →
  (handleEvents proc st req).1 = st.
Proof. intros Hev Hnone. rewrite (handleEvents_response _ _ _ _ _ Hev), Hnone. done. Qed.

Lemma resolve_path proc st req rid data e :
  Inv st → response_event proc req rid data → pending st !! rid = Some e →
  let st' := (handleEvents proc st req).1 in
  pending st' = delete rid (pending st)
  ∧ timers st' = delete (timer e) (timers st)
  ∧ promises st' !! resolve e
    = Some [Resolved (response_status data) (response_body data)]
  ∧ on_timeout (timer e) st' = st'
  ∧ (handleEvents proc st' req).1 = st'.
Proof.
  intros HI Hev He st'. subst st'.
  rewrite (handleEvents_response _ _ _ _ _ Hev), He.
  destruct HI as [H1 H2 _ _]. destruct (H1 _ _ He) as (cb & Ht & Hp & _).
  apply H2 in Ht as [Hcalls _]. rewrite Hp in Hcalls.
  repeat split.
  - cbn. by rewrite lookup_alter_eq, Hcalls.
  - unfold on_timeout. cbn. by rewrite lookup_delete_eq.
  - apply (handleEvents_no_entry _ _ _ _ _ Hev). cbn. apply lookup_delete_eq.
Qed.

Lemma timeout_path proc st t cb :
  Inv st → timers st !! t = Some cb →
  let st' := on_timeout t st in
  timers st' = delete t (timers st)
  ∧ pending st' = delete (timer_requestId cb) (pending st)
  ∧ promises st' !! timer_reject cb = Some [Rejected "Gateway Timeout"]
  ∧ on_timeout t st' = st'
  ∧ ∀ req data, response_event proc req (timer_requestId cb) data →
      (handleEvents proc st' req).1 = st'.
Proof.
  intros HI Ht st'. subst st'. unfold on_timeout. rewrite Ht.
  destruct HI as [_ H2 _ _]. apply H2 in Ht as [Hcalls _].
  repeat split.
  - cbn. by rewrite lookup_alter_eq, Hcalls.
  - cbn. by rewrite lookup_delete_eq.
  - intros req data Hev. apply (handleEvents_no_entry _ _ _ _ _ Hev).
    cbn. apply lookup_delete_eq.
Qed.

Lemma cancel_path st rid e :
  pending st !! rid = Some e →
  let st' := cancel rid st in
  pending st' = delete rid (pending st)
  ∧ timers st' = delete (timer e) (timers st)
  ∧ promises st' = promises st.
Proof. intros He. unfold cancel. rewrite He. done. Qed.

Lemma entry_unsettled st rid e :
  Inv st → pending st !! rid = Some e →
  promises st !! resolve e = Some []
  ∧ ∃ cb, timers st !! timer e = Some cb
          ∧ timer_reject cb = resolve e ∧ timer_requestId cb = rid.
Proof.
  intros [H1 H2 _ _] He. destruct (H1 _ _ He) as (cb & Ht & Hp & Hr).
  split; [|by eauto]. rewrite <- Hp. by apply H2 in Ht as [? _].
Qed.


(** A promise that nothing can settle any more. *)

Lemma orphan_frame p st st' :
  promises st' = promises st →
  (∀ t cb, timers st' !! t = Some cb → timers st !! t = Some cb) →
  (∀ rid e, pending st' !! rid = Some e → pending st !! rid = Some e) →
  orphan p st → orphan p st'.
Proof.
  intros Hp Ht He (H1 & H2 & H3). unfold orphan. rewrite Hp.
  split; [done|]. split.
  - intros t cb Hcb. eapply H2, Ht, Hcb.
  - intros rid e Hent. eapply H3, He, Hent.
Qed.

Lemma orphan_settle p q o st : q ≠ p → orphan p st → orphan p (settle q o st).
Proof.
  intros Hq (H1 & H2 & H3). split; [|done]. cbn. by rewrite lookup_alter_ne.
Qed.

Lemma orphan_remove p rid t st :
  orphan p st → orphan p (set_pending (delete rid) (clearTimeout t st)).
Proof.
  apply orphan_frame; [done | |]; cbn; intros ? ?; rewrite lookup_delete;
    by case_decide.
Qed.

Lemma orphan_awaitResponse p rid ms st :
  Inv st → orphan p st → orphan p (awaitResponse rid ms st).1.
Proof.
  intros HI (H1 & H2 & H3).
  assert (p ≠ next_promise st) as Hne.
  { apply (inv_promise st HI) in H1 as [_ ?]. lia. }
  split; [|split]; cbn.
  - by rewrite lookup_insert_ne.
  - intros t cb. rewrite lookup_insert. case_decide; [|by apply H2].
    intros [= <-]. cbn. congruence.
  - intros rid' e. rewrite lookup_insert. case_decide; [|by apply H3].
    intros [= <-]. cbn. congruence.
Qed.

Lemma orphan_step proc p st ev : Inv st → orphan p st → orphan p (step proc st ev).
Proof.
  intros HI Ho. pose proof Ho as (H1 & H2 & H3). destruct ev; cbn [step].
  - unfold handleInvoke.
    destruct (readInvokeParams req) as [[clientId|] [path|]]; try done.
    destruct (isReady (readyStore st) clientId) as [[]|]; try done.
    pose proof (orphan_awaitResponse p uuid default_timeoutMs st HI Ho) as HA.
    destruct (awaitResponse uuid default_timeoutMs st) as [st1 q]. cbn in HA.
    destruct publish_ok; cbn; [done|].
    unfold cancel. cbn. destruct (pending st1 !! uuid); [|done].
    apply orphan_remove. exact HA.
  - unfold handleEvents. cbn [fst]. unfold on_response, on_system.
    repeat case_match; try done.
    apply orphan_settle; [by eapply H3 | by apply orphan_remove].
  - unfold handleInit. repeat case_match; done.
  - unfold on_timeout, timeout_callback.
    destruct (timers st !! t) as [cb|] eqn:Ht; [|done].
    apply orphan_settle; [by eapply H2|].
    by apply (orphan_remove p (timer_requestId cb) t st).
  - by destruct (readyStore st).
  - unfold cancel. destruct (pending st !! requestId); [|done].
    by apply orphan_remove.
Qed.

Lemma orphan_run proc p evs st : Inv st → orphan p st → orphan p (run proc st evs).
Proof.
  revert st. induction evs as [|ev evs IH]; intros st HI Ho; [done|].
  cbn. apply IH; [by apply Inv_step | by apply orphan_step].
Qed.


(** No path is left to the promise of an entry once the [catch] block
    around [publish] has dropped the entry. *)
Lemma cancel_orphans st rid e :
  Inv st → pending st !! rid = Some e → orphan (resolve e) (cancel rid st).
Proof.
  intros HI He. pose proof HI as [H1 H2 H3 H4].
  destruct (H1 _ _ He) as (cb & Ht & Hp & Hr).
  unfold cancel. rewrite He. split; [|split]; cbn.
  - rewrite <- Hp. by apply H2 in Ht as [? _].
  - intros t cb'. rewrite lookup_delete. case_decide as Hne; [done|].
    intros Hcb' Heq. apply Hne. symmetry.
    eapply H3; [exact Hcb' | exact Ht | congruence].
  - intros rid' e'. rewrite lookup_delete. case_decide as Hne; [done|].
    intros He' Heq. destruct (H1 _ _ He') as (cb' & Ht' & Hp' & Hr').
    assert (timer e' = timer e) as Htt.
    { eapply H3; [exact Ht' | exact Ht | congruence]. }
    rewrite Htt, Ht in Ht'. congruence.
Qed.

(** C1 (as amended): in every state an instance reaches, no promise has
    received more than one settling call, so resolution and timeout never
    both fire for one registration; an entry that is in the table is
    unsettled and its timer is armed, so the timeout path stays open until
    one of the two fires; resolution by a matching response removes the
    entry, clears its timer and fulfils the promise, after which the timer
    does nothing and a second resolve attempt is a no-op; expiry of the
    timer removes the entry and rejects the promise, after which a resolve
    attempt finds no entry and is a no-op; when publish fails while the
    entry is still in the table, the gateway itself removes the entry and
    clears the timer without settling the promise, and the promise stays
    unsettled whatever happens afterwards: neither path fires for that
    registration; and a publish failure that comes when the entry has
    already gone changes nothing. *)
Theorem settlement_at_most_once (proc : Process) (db : gmap string string)
    (connected : bool) (evs : list Event) :
  let st := run proc (initial proc db connected) evs in
  (∀ p calls, promises st !! p = Some calls → (length calls ≤ 1)%nat)
  ∧ (∀ rid e, pending st !! rid = Some e →
       promises st !! resolve e = Some []
       ∧ ∃ cb, timers st !! timer e = Some cb
               ∧ timer_reject cb = resolve e ∧ timer_requestId cb = rid)
  ∧ (∀ req rid data e,
       response_event proc req rid data → pending st !! rid = Some e →
       let st' := (handleEvents proc st req).1 in
       pending st' = delete rid (pending st)
       ∧ timers st' = delete (timer e) (timers st)
       ∧ promises st' !! resolve e
         = Some [Resolved (response_status data) (response_body data)]
       ∧ on_timeout (timer e) st' = st'
       ∧ (handleEvents proc st' req).1 = st')
  ∧ (∀ t cb, timers st !! t = Some cb →
       let st' := on_timeout t st in
       timers st' = delete t (timers st)
       ∧ pending st' = delete (timer_requestId cb) (pending st)
       ∧ promises st' !! timer_reject cb = Some [Rejected "Gateway Timeout"]
       ∧ on_timeout t st' = st'
       ∧ ∀ req data, response_event proc req (timer_requestId cb) data →
           (handleEvents proc st' req).1 = st')
  ∧ (∀ rid e, pending st !! rid = Some e →
       let st' := cancel rid st in
       pending st' = delete rid (pending st)
       ∧ timers st' = delete (timer e) (timers st)
       ∧ promises st' = promises st
       ∧ ∀ later, promises (run proc st' later) !! resolve e = Some [])
  ∧ (∀ rid, pending st !! rid = None → cancel rid st = st).
Proof.
  intros st.
  assert (Inv st) as HI by apply Inv_run, Inv_initial.
  split; [|split; [|split; [|split; [|split]]]].
  - intros p calls Hp. by apply (inv_promise st HI) in Hp as [? _].
  - intros rid e. by apply entry_unsettled.
  - intros req rid data e. by apply resolve_path.
  - intros t cb. by apply timeout_path.
  - intros rid e He. destruct (cancel_path st rid e He) as (Hp & Ht & Hs).
    split; [exact Hp|]. split; [exact Ht|]. split; [exact Hs|].
    intros later. eapply orphan_run; [by apply Inv_cancel|].
    by apply cancel_orphans.
  - intros rid Hnone. unfold cancel. by rewrite Hnone.
Qed.

End Settlement.
(** ** The gateway and the router *)

Section Gateway.
Import Json Js ProxyServer.
Context {rt : Runtime}.

Lemma handleInvoke_not_ready st req uuid ok clientId path :
  readInvokeParams req = (Some clientId, Some path) →
  isReady (readyStore st) clientId = Some false →
  handleInvoke st req uuid ok
  = (st, Replied (json (error_body "Client not ready") 409)).
Proof. intros Hp Hr. unfold handleInvoke. by rewrite Hp, Hr. Qed.

(** C2: when the parameters are present and the readiness registry reports
    the target worker not ready, [handleInvoke] answers 409 and leaves the
    whole state as it was: nothing is registered in the pending table, no
    timer is armed, and [sendToUser] is not called (the list of transport
    publishes is unchanged), whatever the transport would have done. *)
Theorem not_ready_never_publishes (st : State) (req : Request) (uuid : string)
    (publish_ok : bool) (clientId path : string) :
  readInvokeParams req = (Some clientId, Some path) →
  isReady (readyStore st) clientId = Some false →
  let '(st', result) := handleInvoke st req uuid publish_ok in
  result = Replied (json (error_body "Client not ready") 409)
  ∧ status (json (error_body "Client not ready") 409) = 409
  ∧ published st' = published st
  ∧ pending st' = pending st
  ∧ st' = st.
Proof.
  intros Hp Hr. rewrite (handleInvoke_not_ready _ _ _ _ _ _ Hp Hr). done.
Qed.

Lemma handleInvoke_ready st req uuid ok clientId path :
  readInvokeParams req = (Some clientId, Some path) →
  isReady (readyStore st) clientId = Some true →
  handleInvoke st req uuid ok =
  let message := request_message uuid (method req) path (invoke_body req) in
  let st2 := publish clientId message (awaitResponse uuid default_timeoutMs st).1 in
  if ok then (st2, Awaiting uuid (awaitResponse uuid default_timeoutMs st).2)
  else (cancel uuid st2,
        Replied (json (error_body "Failed to publish to PubSub") 502)).
Proof. intros Hp Hr. unfold handleInvoke. by rewrite Hp, Hr. Qed.

(** C3: when the worker is ready and the transport publish throws,
    [handleInvoke] answers 502 with the publish-failure error, which is not
    the 504 of the timeout path; the entry it had registered is out of the
    table and its timer is no longer armed: the armed timers are those from
    before the call, the table is the old one without the key, and for a
    fresh key it is the old table. The one call of [sendToUser] that was
    made carried the envelope of the request. *)
Theorem publish_failure_removes_entry (proc : Process) (db : gmap string string)
    (connected : bool) (evs : list Event) (req : Request) (uuid : string)
    (clientId path : string) :
  let st := run proc (initial proc db connected) evs in
  readInvokeParams req = (Some clientId, Some path) →
  isReady (readyStore st) clientId = Some true →
  let '(st', result) := handleInvoke st req uuid false in
  result = Replied (json (error_body "Failed to publish to PubSub") 502)
  ∧ (∀ message, status (handleInvoke_resume (Rejected message)) = 504)
  ∧ status (json (error_body "Failed to publish to PubSub") 502) ≠ 504
  ∧ pending st' !! uuid = None
  ∧ pending st' = delete uuid (pending st)
  ∧ (pending st !! uuid = None → pending st' = pending st)
  ∧ timers st' = timers st
  ∧ published st'
    = published st
      ++ [(clientId,
           JSON_stringify
             (JObj [("type", JStr "request"); ("requestId", JStr uuid);
                    ("method", JStr (method req)); ("path", JStr path);
                    ("body", invoke_body req)]))].
Proof.
  intros st Hp Hr.
  assert (Inv st) as HI by apply Inv_run, Inv_initial.
  rewrite (handleInvoke_ready _ _ _ _ _ _ Hp Hr). cbv zeta.
  unfold cancel. cbn. rewrite lookup_insert_eq. cbn.
  assert (timers st !! next_timer st = None) as Hfresh.
  { destruct (timers st !! next_timer st) as [cb|] eqn:E; [|done].
    apply (inv_timer st HI) in E as [_ E]. lia. }
  repeat split.
  - done.
  - apply lookup_delete_eq.
  - by rewrite delete_insert_eq.
  - intros Hnone. rewrite delete_insert_eq. by apply delete_id.
  - rewrite delete_insert_eq. by apply delete_id.
Qed.

(** C4: whatever the request (any headers, any body, JSON or not, any event
    type, any hub) and whatever the state of the instance, [handleEvents]
    answers 200 with no body. Internal outcomes stay inside: a body on which
    [JSON.parse] throws changes nothing, and when the readiness store throws
    on an init announcement the state is left as it was. *)
Theorem events_always_acknowledged (proc : Process) (st : State) (req : Request) :
  (handleEvents proc st req).2 = {| status := 200; content_type := None; body := None |}
  ∧ (JSON_parse (text req) = None → (handleEvents proc st req).1 = st)
  ∧ (∀ db, readyStore st = RedisStore db false →
       readyStore (handleEvents proc st req).1 = RedisStore db false).
Proof.
  split; [reflexivity|]. split.
  - intros Hbad. unfold handleEvents. cbn [fst parseJSON]. rewrite Hbad.
    unfold on_response, on_system. cbn. by repeat case_match.
  - intros db Hst. unfold handleEvents. cbn [fst].
    unfold on_response, on_system. rewrite Hst.
    repeat case_match; simplify_eq/=; done.
Qed.

(** C5: a response event whose requestId has no entry in the pending table
    (timed out, already resolved, or never registered) leaves the state of
    the instance exactly as it was, so no entry of any other id is removed,
    resolved or changed, and the webhook is answered 200 like any other. *)
Theorem unknown_correlation_is_dropped (proc : Process) (st : State)
    (req : Request) (requestId : string) (data : value) :
  response_event proc req requestId data →
  pending st !! requestId = None →
  handleEvents proc st req
  = (st, {| status := 200; content_type := None; body := None |})
  ∧ (∀ other, pending (handleEvents proc st req).1 !! other = pending st !! other)
  ∧ timers (handleEvents proc st req).1 = timers st
  ∧ promises (handleEvents proc st req).1 = promises st.
Proof.
  intros Hev Hnone.
  pose proof (handleEvents_no_entry proc st req requestId data Hev Hnone) as Hst.
  destruct (handleEvents proc st req) as [st' r] eqn:E.
  assert (r = {| status := 200; content_type := None; body := None |}) as ->.
  { unfold handleEvents in E. by injection E as _ <-. }
  cbn in Hst. subst st'. done.
Qed.

End Gateway.

Section GatewayExamples.
Import Json Js ProxyServer.
#[local] Existing Instance example_runtime.

Lemma response_request_event :
  response_event plain_process (response_request plain_process hello_response)
    "r1" (Some hello_response).
Proof. repeat split; by vm_compute. Defined.

Lemma settlement_at_most_once_witness :
  let st' := (handleEvents plain_process waiting_state
                (response_request plain_process hello_response)).1 in
  pending waiting_state !! "r1" = Some {| resolve := 0; reject := 0; timer := 0 |}
  ∧ pending st' = delete "r1" (pending waiting_state)
  ∧ promises st' !! 0%nat = Some [Resolved (int 200) (JObj [("msg", JStr "hello")])]
  ∧ on_timeout 0 st' = st'.
Proof.
  cbv zeta.
  assert (pending waiting_state !! "r1"
          = Some {| resolve := 0; reject := 0; timer := 0 |}) as He by (by vm_compute).
  split; [exact He|].
  destruct (settlement_at_most_once plain_process ∅ false
              [EvInit (init_request "w1");
               EvInvoke (invoke_request "w1" "/hello") "r1" true])
    as (_ & _ & Hresolve & _ & _).
  destruct (Hresolve _ _ _ _ response_request_event He) as (Hp & _ & Hs & Ht & _).
  split; [exact Hp|]. split; [exact Hs | exact Ht].
Defined.

(** C1 (as stated) fails: worker [w1] is ready, an invocation registers
    [r1] with promise 0 and an armed timer, and the transport publish
    throws. The gateway answers 502 after removing the entry and clearing
    the timer: promise 0 has received no call, nothing is left that could
    make one, and it stays so whatever happens next. Neither settlement
    path fires for [r1]. *)
Lemma publish_failure_settles_neither :
  let boot := initial plain_process ∅ false in
  let ready := run plain_process boot [EvInit (init_request "w1")] in
  let registered := (awaitResponse "r1" default_timeoutMs ready).1 in
  let st := step plain_process ready (EvInvoke (invoke_request "w1" "/hello") "r1" false) in
  isReady (readyStore ready) "w1" = Some true
  ∧ pending registered !! "r1" = Some {| resolve := 0; reject := 0; timer := 0 |}
  ∧ (timer_reject <$> timers registered !! 0%nat) = Some 0%nat
  ∧ (status <$> match (handleInvoke ready (invoke_request "w1" "/hello") "r1" false).2 with
                | Replied r => Some r
                | _ => None
                end) = Some 502
  ∧ pending st = ∅ ∧ timers st = ∅
  ∧ (∀ evs, promises (run plain_process st evs) !! 0%nat = Some []).
Proof.
  cbv zeta.
  assert (Inv (step plain_process
                 (run plain_process (initial plain_process ∅ false)
                    [EvInit (init_request "w1")])
                 (EvInvoke (invoke_request "w1" "/hello") "r1" false))) as HI.
  { apply Inv_step, Inv_run, Inv_initial. }
  split; [by vm_compute|]. split; [by vm_compute|]. split; [by vm_compute|].
  split; [by vm_compute|].
  assert (pending (step plain_process
                 (run plain_process (initial plain_process ∅ false)
                    [EvInit (init_request "w1")])
                 (EvInvoke (invoke_request "w1" "/hello") "r1" false)) = ∅) as Hp
    by (by vm_compute).
  assert (timers (step plain_process
                 (run plain_process (initial plain_process ∅ false)
                    [EvInit (init_request "w1")])
                 (EvInvoke (invoke_request "w1" "/hello") "r1" false)) = ∅) as Ht
    by (by vm_compute).
  split; [done|]. split; [done|].
  intros evs. eapply orphan_run; [exact HI|].
  split; [by vm_compute|]. rewrite Hp, Ht.
  split; intros *; rewrite lookup_empty; congruence.
Qed.

Lemma not_ready_never_publishes_witness :
  let st := initial plain_process ∅ false in
  handleInvoke st (invoke_request "w2" "/hello") "r1" true
  = (st, Replied (json (error_body "Client not ready") 409))
  ∧ published st = [].
Proof.
  cbv zeta.
  pose proof (not_ready_never_publishes (initial plain_process ∅ false)
                (invoke_request "w2" "/hello") "r1" true "w2" "/hello"
                eq_refl eq_refl) as H.
  destruct (handleInvoke (initial plain_process ∅ false)
              (invoke_request "w2" "/hello") "r1" true) as [st' result].
  destruct H as (-> & _ & _ & _ & ->). split; reflexivity.
Defined.

Lemma publish_failure_removes_entry_witness :
  let ready := run plain_process (initial plain_process ∅ false)
                 [EvInit (init_request "w1")] in
  let st' := (handleInvoke ready (invoke_request "w1" "/hello") "r1" false).1 in
  pending st' = pending ready ∧ timers st' = timers ready.
Proof.
  cbv zeta.
  pose proof (publish_failure_removes_entry plain_process ∅ false
                [EvInit (init_request "w1")] (invoke_request "w1" "/hello") "r1"
                "w1" "/hello" eq_refl) as H.
  cbv zeta in H. specialize (H ltac:(by vm_compute)).
  destruct (handleInvoke _ (invoke_request "w1" "/hello") "r1" false) as [st' result].
  destruct H as (_ & _ & _ & _ & _ & Hfresh & Ht & _).
  split; [apply Hfresh; by vm_compute | exact Ht].
Defined.

Lemma events_always_acknowledged_witness :
  let req := post "/events" [] ∅ "{not json" None in
  handleEvents plain_process (initial plain_process ∅ false) req
  = (initial plain_process ∅ false,
     {| status := 200; content_type := None; body := None |}).
Proof.
  cbv zeta.
  destruct (events_always_acknowledged plain_process (initial plain_process ∅ false)
              (post "/events" [] ∅ "{not json" None)) as (Hack & Hbad & _).
  specialize (Hbad ltac:(by vm_compute)).
  destruct (handleEvents plain_process (initial plain_process ∅ false)
              (post "/events" [] ∅ "{not json" None)) as [st' r].
  cbn in Hack, Hbad. by rewrite Hack, Hbad.
Defined.

Lemma unknown_correlation_is_dropped_witness :
  let late := JObj [("type", JStr "response"); ("requestId", JStr "gone");
                    ("status", JNum (int 200))] in
  handleEvents plain_process waiting_state (response_request plain_process late)
  = (waiting_state, {| status := 200; content_type := None; body := None |}).
Proof.
  cbv zeta.
  refine (proj1 (unknown_correlation_is_dropped plain_process waiting_state
                   _ "gone" (Some _) _ _)).
  - repeat split; by vm_compute.
  - by vm_compute.
Defined.

End GatewayExamples.
(** ** Timeout, malformed responses, access checks *)

Section Policies.
Import Json Js ProxyServer.
Context {rt : Runtime}.

Lemma awaitResponse_delay requestId timeoutMs st :
  entry_delay (awaitResponse requestId timeoutMs st).1 requestId = Some timeoutMs.
Proof.
  unfold entry_delay. cbn. rewrite lookup_insert_eq. cbn.
  by rewrite lookup_insert_eq.
Qed.

(** C9 (as amended): every entry that [handleInvoke] registers is guarded by
    a timer of 30000 ms, the default of [awaitResponse], which lies in the
    10 to 30 second range; [awaitResponse] takes the duration as an argument
    and arms the timer with whatever it is given, but [handleInvoke] passes
    none and reads no configuration, so the value is the same in every
    deployment. *)
Theorem invoke_timeout_is_default (proc : Process) (db : gmap string string)
    (connected : bool) (evs : list Event) (req : Request) (uuid : string)
    (publish_ok : bool) (p : nat) :
  let st := run proc (initial proc db connected) evs in
  (handleInvoke st req uuid publish_ok).2 = Awaiting uuid p →
  entry_delay (handleInvoke st req uuid publish_ok).1 uuid = Some 30000
  ∧ 10000 ≤ default_timeoutMs ≤ 30000
  ∧ (∀ timeoutMs st0, entry_delay (awaitResponse uuid timeoutMs st0).1 uuid = Some timeoutMs).
Proof.
  intros st Hres. split; [|split; [by vm_compute | intros; apply awaitResponse_delay]].
  unfold handleInvoke in *.
  destruct (readInvokeParams req) as [[clientId|] [path|]]; try discriminate Hres.
  destruct (isReady (readyStore st) clientId) as [[]|]; try discriminate Hres.
  pose proof (awaitResponse_delay uuid default_timeoutMs st) as Hd.
  destruct (awaitResponse uuid default_timeoutMs st) as [st1 q].
  destruct publish_ok; [exact Hd | discriminate Hres].
Qed.

(** C10: when a response event matches an entry and its [status] is missing
    or not a number, the entry's promise is fulfilled with status 200, and
    with body [null] when [body] is absent; the entry leaves the table and
    the waiting [handleInvoke] answers 200. *)
Theorem malformed_status_resolves_200 (proc : Process) (db : gmap string string)
    (connected : bool) (evs : list Event) (req : Request) (requestId : string)
    (data : value) (e : Pending) :
  let st := run proc (initial proc db connected) evs in
  response_event proc req requestId data →
  pending st !! requestId = Some e →
  (∀ n, get "status" data ≠ Some (JNum n)) →
  let st' := (handleEvents proc st req).1 in
  settled_as st' (resolve e) = Some (Resolved (int 200) (response_body data))
  ∧ (get "body" data = None → settled_as st' (resolve e) = Some (Resolved (int 200) JNull))
  ∧ pending st' !! requestId = None
  ∧ status (handleInvoke_resume (Resolved (int 200) (response_body data))) = 200.
Proof.
  intros st Hev He Hstatus st'.
  assert (Inv st) as HI by apply Inv_run, Inv_initial.
  destruct (resolve_path proc st req requestId data e HI Hev He)
    as (Hp & _ & Hs & _ & _).
  fold st' in Hp, Hs.
  assert (response_status data = int 200) as H200.
  { unfold response_status. destruct (get "status" data) as [[]|] eqn:E; try done.
    by destruct (Hstatus n). }
  rewrite H200 in Hs.
  assert (settled_as st' (resolve e) = Some (Resolved (int 200) (response_body data))) as Hset.
  { unfold settled_as. by rewrite Hs. }
  split; [exact Hset|]. split; [|split].
  - intros Hbody. rewrite Hset. unfold response_body. by rewrite Hbody.
  - rewrite Hp. apply lookup_delete_eq.
  - reflexivity.
Qed.

Lemma list_includes_spec (l : list string) (x : string) :
  list_includes l x = true ↔ x ∈ l.
Proof.
  induction l as [|y l IH]; cbn.
  - split; [discriminate | by intros ?%elem_of_nil].
  - rewrite orb_true_iff, IH, elem_of_cons, String.eqb_eq.
    split; (intros [?|?]; [left | right]); congruence.
Qed.

(** C7: on /auth, a configured API key that the [x-api-key] header does not
    match gives 401; past that check, a supplied clientId that is not in a
    non-empty allow-list gives 403; and with an empty allow-list every
    clientId is permitted. *)
Theorem auth_rejections (proc : Process) (req : Request) (token : TokenOutcome) :
  (nonempty (AUTH_TOKEN proc) = true →
   header req "x-api-key" ≠ AUTH_TOKEN proc →
   handleAuth proc req token = json (error_body "Unauthorized") 401
   ∧ status (handleAuth proc req token) = 401)
  ∧ (verifyApiKey proc req = true →
     nonempty (body_clientId req) = true →
     ALLOWED_CLIENT_IDS proc ≠ [] →
     body_clientId req ∉ ALLOWED_CLIENT_IDS proc →
     handleAuth proc req token = json (error_body "Forbidden clientId") 403
     ∧ status (handleAuth proc req token) = 403)
  ∧ (ALLOWED_CLIENT_IDS proc = [] →
     ∀ clientId, isClientAllowed proc clientId = true).
Proof.
  split; [|split].
  - intros Hkey Hne. unfold handleAuth, verifyApiKey. rewrite Hkey. cbn [negb].
    destruct (String.eqb_spec (header req "x-api-key") (AUTH_TOKEN proc)); done.
  - intros Hkey Hid Hlist Hnot. unfold handleAuth. rewrite Hkey, Hid. cbn [negb].
    assert (isClientAllowed proc (body_clientId req) = false) as ->; [|done].
    unfold isClientAllowed. destruct (ALLOWED_CLIENT_IDS proc) as [|a l] eqn:E; [done|].
    apply not_true_is_false. by rewrite list_includes_spec.
  - intros Hempty clientId. unfold isClientAllowed. by rewrite Hempty.
Qed.

End Policies.

Section PoliciesExamples.
Import Json Js ProxyServer.
#[local] Existing Instance example_runtime.

Lemma invoke_timeout_is_default_witness :
  entry_delay waiting_state "r1" = Some 30000.
Proof.
  refine (proj1 (invoke_timeout_is_default plain_process ∅ false
                   [EvInit (init_request "w1")] (invoke_request "w1" "/hello")
                   "r1" true 0%nat _)).
  by vm_compute.
Defined.

(** C9 (as stated) fails: a deployment whose environment sets
    [REQUEST_TIMEOUT_MS], [REQUEST_TIMEOUT] and [TIMEOUT_MS] to 15 seconds
    registers the entry with the same 30000 ms as a deployment that sets
    nothing. The value used by [handleInvoke] does not follow the
    configuration. *)
Lemma timeout_ignores_environment :
  let run_in proc :=
    run proc (initial proc ∅ false)
      [EvInit (init_request "w1"); EvInvoke (invoke_request "w1" "/hello") "r1" true] in
  env tuned_process !! "REQUEST_TIMEOUT_MS" = Some "15000"
  ∧ entry_delay (run_in tuned_process) "r1" = Some 30000
  ∧ entry_delay (run_in plain_process) "r1" = Some 30000
  ∧ entry_delay (run_in tuned_process) "r1" ≠ Some 15000.
Proof. cbv zeta. repeat split; by vm_compute. Qed.

Lemma malformed_status_resolves_200_witness :
  let odd := JObj [("type", JStr "response"); ("requestId", JStr "r1");
                   ("status", JStr "ok")] in
  settled_as (handleEvents plain_process waiting_state
                (response_request plain_process odd)).1 0%nat
  = Some (Resolved (int 200) JNull).
Proof.
  cbv zeta.
  refine (proj1 (proj2 (malformed_status_resolves_200 plain_process ∅ false
     [EvInit (init_request "w1"); EvInvoke (invoke_request "w1" "/hello") "r1" true]
     (response_request plain_process _) "r1" (Some _)
     {| resolve := 0; reject := 0; timer := 0 |} _ _ _)) _).
  - repeat split; by vm_compute.
  - by vm_compute.
  - intros n. by vm_compute.
  - by vm_compute.
Defined.

Lemma auth_rejections_witness :
  let keyed := <["x-api-key" := "s3cret"]> ∅ in
  let body := JObj [("clientId", JStr "w2")] in
  status (handleAuth tuned_process (post_json "/auth" [] ∅ body) TokenThrows) = 401
  ∧ status (handleAuth tuned_process (post_json "/auth" [] keyed body) TokenThrows) = 403
  ∧ isClientAllowed plain_process "w2" = true.
Proof.
  cbv zeta.
  split; [|split].
  - refine (proj2 (proj1 (auth_rejections tuned_process _ TokenThrows) _ _));
      by vm_compute.
  - refine (proj2 (proj1 (proj2 (auth_rejections tuned_process _ TokenThrows))
                     _ _ _ _)); try by vm_compute.
    rewrite <- list_includes_spec. by vm_compute.
  - apply (proj2 (proj2 (auth_rejections plain_process (post "/auth" [] ∅ EmptyString None)
                           TokenThrows))). by vm_compute.
Defined.

End PoliciesExamples.

(** ** Envelopes on the wire, and the forwarder *)

Section Envelopes.
Import Json Js ProxyServer ProxyClient.
Context {rt : Runtime}.

Lemma plain_obj (l : list (string * JSON)) :
  plain (JObj l)
  ↔ NoDup (map fst l) ∧ Forall (λ kv, index_key kv.1 = false ∧ plain kv.2) l.
Proof.
  unfold plain. rewrite wf_obj, fragment_obj, !Forall_forall.
  split.
  - intros [[Hnd Hwf] Hfr]. split; [done|]. intros kv Hkv.
    destruct (Hfr kv Hkv). auto.
  - intros [Hnd H]. split; [split; [done|]|]; intros kv Hkv;
      destruct (H kv Hkv) as (? & ? & ?); auto.
Qed.

Lemma parseJSON_stringify (v : JSON) :
  agrees_on_fragment rt → plain v →
  parseJSON (Some (JStr (JSON_stringify v))) = Some v.
Proof.
  intros [Hprint Hread] Hv. cbn.
  by rewrite (Hprint v Hv), (Hread _ _ (parse_stringify v Hv)).
Qed.

Ltac plain_fields :=
  repeat (apply Forall_cons_2;
          [split; [reflexivity | first [assumption | by split]] |]);
  apply Forall_nil_2.

Lemma request_value_plain (e : RequestEnvelope) :
  plain_request e → plain (request_value e).
Proof.
  destruct e as [i m p [b|]]; unfold plain_request, request_value; cbn [req_body];
    intros Hb; apply plain_obj; (split; [by apply (bool_decide_unpack _)|]);
    cbn [app optional_field]; plain_fields.
Qed.

Lemma response_value_plain (r : ResponseEnvelope) :
  plain_response r → plain (response_value r).
Proof.
  destruct r as [[i|] s b]; unfold plain_response, response_value;
    cbn [res_body res_requestId res_status];
    intros (Hs & Hb & Hi); apply plain_obj;
    (split; [by apply (bool_decide_unpack _)|]);
    cbn [app optional_field]; plain_fields.
Qed.

Lemma as_request_value (e : RequestEnvelope) : as_request (Some (request_value e)) = Some e.
Proof. by destruct e as [i m p [b|]]. Qed.

Lemma as_response_value (r : ResponseEnvelope) :
  as_response (Some (response_value r)) = Some r.
Proof. by destruct r as [[i|] s b]. Qed.


Lemma forwardToLocal_typed LOCAL (e : RequestEnvelope) fetched :
  ∃ r, forwardToLocal LOCAL (Some (request_value e)) fetched = Returned r
       ∧ res_requestId r = Some (JStr (req_requestId e))
       ∧ (∀ err, fetched = Thrown err →
            res_status r = int 500
            ∧ res_body r = JObj [("error", JStr (diagnostic err))]).
Proof.
  unfold forwardToLocal.
  assert (∃ c, local_call LOCAL (Some (request_value e)) = Returned c) as [c ->].
  { destruct e as [i m p b]. unfold local_call, request_value. cbn.
    destruct (nonempty m); eauto. }
  assert (get "requestId" (Some (request_value e)) = Some (JStr (req_requestId e))) as Hid.
  { by destruct e. }
  destruct fetched as [resp|err0].
  - destruct (read_body resp) as [b|err1]; eexists; (split; [reflexivity|]);
      (split; [exact Hid | discriminate]).
  - eexists. split; [reflexivity|]. split; [exact Hid|].
    intros err [= <-]. done.
Qed.

(** What [onMessage] does with a frame that carries a request envelope. *)
Lemma onMessage_frame LOCAL (e : RequestEnvelope) fetched data m r :
  JSON_parse data = Some m → message_frame m (request_value e) →
  forwardToLocal LOCAL (Some (request_value e)) fetched = Returned r →
  onMessage LOCAL data fetched = [JSON_stringify (outbound r)].
Proof.
  intros Hparse [Hty Hdata] Hr. unfold onMessage. rewrite Hparse, Hty.
  change (is_string "system" (Some (JStr "message"))) with false.
  change (is_string "ack" (Some (JStr "message"))) with false.
  change (is_string "message" (Some (JStr "message"))) with true.
  cbn [andb].
  assert (frame_payload (Some m) = Some (request_value e)) as ->.
  { unfold frame_payload. rewrite Hdata. by repeat case_match. }
  assert (truthy (Some (request_value e))
          && JsType_eqb (typeof (Some (request_value e))) TObject
          && is_string "request" (get "type" (Some (request_value e))) = true) as ->
    by done.
  by rewrite Hr.
Qed.


End Envelopes.

Section EnvelopesExamples.
Import Json Js ProxyServer ProxyClient.
#[local] Existing Instance example_runtime.

Lemma example_agrees : agrees_on_fragment example_runtime.
Proof. by split. Qed.




End EnvelopesExamples.

(** ** Readiness: the two stores, /init and the system hub *)

Section Readiness.
Import Json Js ProxyServer.

Lemma redis_key_inj (a b : string) : redis_key a = redis_key b → a = b.
Proof. intros H. cbv [redis_key String.append] in H. by injection H. Qed.

Lemma isReady_setReady (s s' : ReadyStore) (clientId : string) (ready : bool) :
  setReady s clientId ready = Some s' →
  isReady s' clientId = Some ready
  ∧ ∀ other, other ≠ clientId → isReady s' other = isReady s other.
Proof.
  destruct s as [mem|db [|]]; cbn; intros [= <-]; cbn.
  - destruct ready.
    + rewrite lookup_insert_eq. split; [done|]. intros other Hne.
      by rewrite lookup_insert_ne.
    + rewrite lookup_delete_eq. split; [done|]. intros other Hne.
      by rewrite lookup_delete_ne.
  - destruct ready.
    + rewrite lookup_insert_eq. split; [done|]. intros other Hne.
      rewrite lookup_insert_ne; [done|]. by intros ?%redis_key_inj.
    + rewrite lookup_delete_eq. split; [done|]. intros other Hne.
      rewrite lookup_delete_ne; [done|]. by intros ?%redis_key_inj.
Qed.

(** X1: on either store, after [setReady(clientId, ready)] returns,
    [isReady(clientId)] gives [ready] and the answer for every other
    clientId is what it was. *)
Theorem readiness_write_then_read (s s' : ReadyStore) (clientId : string)
    (ready : bool) :
  setReady s clientId ready = Some s' →
  isReady s' clientId = Some ready
  ∧ ∀ other, other ≠ clientId → isReady s' other = isReady s other.
Proof. apply isReady_setReady. Qed.

Lemma readiness_write_then_read_witness :
  isReady (RedisStore (<[redis_key "w1" := "1"]> ∅) true) "w1" = Some true
  ∧ isReady (RedisStore (<[redis_key "w1" := "1"]> ∅) true) "w2"
    = isReady (RedisStore ∅ true) "w2".
Proof.
  destruct (readiness_write_then_read (RedisStore ∅ true)
              (RedisStore (<[redis_key "w1" := "1"]> ∅) true) "w1" true eq_refl)
    as [Hread Hframe].
  split; [exact Hread|]. apply Hframe. discriminate.
Defined.

Lemma stores_step (mem : gmap string bool) (db : gmap string string)
    (clientId : string) (ready : bool) :
  (∀ c, isReady (MemStore mem) c = isReady (RedisStore db true) c) →
  ∃ m r, setReady (MemStore mem) clientId ready = Some m
         ∧ setReady (RedisStore db true) clientId ready = Some r
         ∧ (∃ mem' db', m = MemStore mem' ∧ r = RedisStore db' true)
         ∧ ∀ c, isReady m c = isReady r c.
Proof.
  intros Hagree. eexists _, _. split; [reflexivity|]. split; [reflexivity|].
  split; [by eauto|]. intros c.
  pose proof (isReady_setReady (MemStore mem) _ clientId ready eq_refl) as [Hm Hm'].
  pose proof (isReady_setReady (RedisStore db true) _ clientId ready eq_refl) as [Hr Hr'].
  destruct (decide (c = clientId)) as [->|Hne].
  - by rewrite Hm, Hr.
  - by rewrite Hm', Hr', Hagree.
Qed.

Lemma stores_run (ops : list (string * bool)) :
  ∀ mem db,
    (∀ c, isReady (MemStore mem) c = isReady (RedisStore db true) c) →
    ∃ m r, setReady_all ops (MemStore mem) = Some m
           ∧ setReady_all ops (RedisStore db true) = Some r
           ∧ ∀ c, isReady m c = isReady r c.
Proof.
  induction ops as [|[clientId ready] ops IH]; intros mem db Hagree.
  - by eexists _, _.
  - destruct (stores_step mem db clientId ready Hagree)
      as (m & r & Hm & Hr & (mem' & db' & -> & ->) & Hagree').
    cbn [setReady_all]. rewrite Hm, Hr. by apply IH.
Qed.

(** X2: the two readiness stores are interchangeable: the same sequence of
    [setReady] calls on the in-memory store and on a connected Redis store
    that held no readiness key leaves them answering every [isReady] alike. *)
Theorem stores_interchangeable (ops : list (string * bool)) (db : gmap string string) :
  (∀ c, db !! redis_key c = None) →
  ∃ m r, setReady_all ops (MemStore ∅) = Some m
         ∧ setReady_all ops (RedisStore db true) = Some r
         ∧ ∀ c, isReady m c = isReady r c.
Proof.
  intros Hdb. apply stores_run. intros c. cbn. by rewrite lookup_empty, Hdb.
Qed.

Lemma stores_interchangeable_witness :
  ∃ m r, setReady_all [("w1", true); ("w2", true); ("w1", false)] (MemStore ∅) = Some m
         ∧ setReady_all [("w1", true); ("w2", true); ("w1", false)]
             (RedisStore (<["session" := "x"]> ∅) true) = Some r
         ∧ isReady m "w2" = isReady r "w2".
Proof.
  destruct (stores_interchangeable [("w1", true); ("w2", true); ("w1", false)]
              (<["session" := "x"]> ∅)) as (m & r & Hm & Hr & Hagree).
  - intros c. rewrite lookup_insert_ne; [done|]. cbv [redis_key String.append].
    discriminate.
  - exists m, r. auto.
Defined.

End Readiness.

Section Announcements.
Import Json Js ProxyServer.
Context {rt : Runtime}.

Lemma response_hub_not_system (proc : Process) :
  String.eqb SYSTEM_HUB (RESPONSE_HUB proc) = false.
Proof. reflexivity. Qed.

Lemma handleEvents_system proc st req clientId :
  system_event proc req clientId →
  (handleEvents proc st req).1 =
  match setReady (readyStore st) clientId true with
  | Some s => set_readyStore s st
  | None => st
  end.
Proof.
  intros (Hty & Hhub & Hobj & Htype & Hid).
  unfold handleEvents. cbn [fst]. rewrite Hty, Hhub, String.eqb_refl.
  rewrite response_hub_not_system. cbn [andb]. rewrite String.eqb_refl.
  unfold on_system. by rewrite Hobj, Htype, Hid.
Qed.

(** X3: POST /init marks a worker ready only when its clientId is present
    and allowed: without a clientId the answer is 400, with a clientId
    outside a non-empty allow-list it is 403, and in both cases the state is
    left as it was; otherwise, when the store accepts the write, the answer
    is 200, [isReady] holds of that clientId afterwards, and the pending
    table, the timers, the promises and the transport are untouched. *)
Theorem init_marks_allowed_workers_only (proc : Process) (st : State) (req : Request) :
  (nonempty (body_clientId req) = false →
   handleInit proc st req = (st, Some (json (error_body "clientId is required") 400)))
  ∧ (nonempty (body_clientId req) = true →
     isClientAllowed proc (body_clientId req) = false →
     handleInit proc st req = (st, Some (json (error_body "Forbidden clientId") 403)))
  ∧ (∀ s, nonempty (body_clientId req) = true →
     isClientAllowed proc (body_clientId req) = true →
     setReady (readyStore st) (body_clientId req) true = Some s →
     let st' := (handleInit proc st req).1 in
     (handleInit proc st req).2 = Some (json (JObj [("ok", JBool true)]) 200)
     ∧ isReady (readyStore st') (body_clientId req) = Some true
     ∧ pending st' = pending st ∧ timers st' = timers st
     ∧ promises st' = promises st ∧ published st' = published st).
Proof.
  split; [|split].
  - intros Hid. unfold handleInit. by rewrite Hid.
  - intros Hid Hno. unfold handleInit. by rewrite Hid, Hno.
  - intros s Hid Hok Hset. unfold handleInit. rewrite Hid, Hok, Hset. cbn.
    split; [done|]. split; [|done].
    by apply (isReady_setReady _ _ _ _ Hset).
Qed.

(** X4: an init announcement that arrives on the system hub marks its
    clientId ready without consulting the allow-list: whenever the store
    accepts the write, [isReady] holds of that clientId afterwards, also for
    a clientId that POST /init refuses with 403; the pending table, the
    timers and the promises are untouched and the webhook is answered 200. *)
Theorem system_init_skips_allow_list (proc : Process) (st : State) (req : Request)
    (clientId : string) (s : ReadyStore) :
  system_event proc req clientId →
  setReady (readyStore st) clientId true = Some s →
  let st' := (handleEvents proc st req).1 in
  isReady (readyStore st') clientId = Some true
  ∧ status (handleEvents proc st req).2 = 200
  ∧ pending st' = pending st ∧ timers st' = timers st ∧ promises st' = promises st.
Proof.
  intros Hev Hset st'. subst st'.
  rewrite (handleEvents_system _ _ _ _ Hev), Hset. cbn.
  split; [|done]. by apply (isReady_setReady _ _ _ _ Hset).
Qed.

Lemma handleInvoke_readyStore st req uuid ok :
  readyStore (handleInvoke st req uuid ok).1 = readyStore st.
Proof.
  unfold handleInvoke.
  destruct (readInvokeParams req) as [[clientId|] [path|]]; try done.
  destruct (isReady (readyStore st) clientId) as [[]|]; try done.
  destruct ok; cbn; [done|]. unfold cancel. cbn.
  by destruct (_ !! uuid).
Qed.

Lemma on_response_readyStore data st :
  readyStore (on_response data st) = readyStore st.
Proof. unfold on_response. by repeat case_match. Qed.

Lemma on_timeout_readyStore t st : readyStore (on_timeout t st) = readyStore st.
Proof. unfold on_timeout. by case_match. Qed.

Lemma cancel_readyStore rid st : readyStore (cancel rid st) = readyStore st.
Proof. unfold cancel. by case_match. Qed.

(** One step of an instance on the in-memory store: the store stays in
    memory, and it either is what it was or has gained the clientId that the
    event announces. *)
Lemma step_memory proc st ev mem :
  readyStore st = MemStore mem →
  ∃ mem', readyStore (step proc st ev) = MemStore mem'
          ∧ (mem' = mem ∨ ∃ c, mem' = <[c := true]> mem ∧ announces proc c ev).
Proof.
  intros Hst. destruct ev; cbn [step].
  - rewrite handleInvoke_readyStore. eauto.
  - unfold handleEvents. cbn [fst].
    destruct (String.eqb (header req "ce-type") "azure.webpubsub.user.message")
      eqn:Hty; cbn [andb]; [|by eauto].
    destruct (String.eqb _ (RESPONSE_HUB proc)) eqn:Hresp.
    { rewrite on_response_readyStore. eauto. }
    destruct (String.eqb _ SYSTEM_HUB) eqn:Hsys; [|by eauto].
    unfold on_system.
    destruct (is_object _ && is_string "init" _) eqn:Hinit; [|by eauto].
    destruct (string_of _) as [c|] eqn:Hc; [|by eauto].
    rewrite Hst. cbn. eexists. split; [reflexivity|]. right. exists c.
    split; [done|]. cbn.
    apply andb_true_iff in Hinit as [Hobj Htype].
    apply String.eqb_eq in Hty, Hsys.
    unfold string_of in Hc. repeat case_match; simplify_eq. done.
  - unfold handleInit.
    destruct (negb (nonempty (body_clientId req))); [by eauto|].
    destruct (negb (isClientAllowed proc (body_clientId req))); [by eauto|].
    rewrite Hst. cbn. eexists. split; [reflexivity|]. right. by eexists.
  - rewrite on_timeout_readyStore. eauto.
  - rewrite Hst. eauto.
  - rewrite cancel_readyStore. eauto.
Qed.

(** X5: on the in-memory store readiness is never cleared and never set
    without an announcement: over any sequence of events a worker that is
    ready stays ready, and a worker that is not ready and that no event
    announces stays not ready, so an invocation for it is answered 409. *)
Theorem readiness_follows_announcements (proc : Process) (evs : list Event)
    (st : State) (mem : gmap string bool) (clientId : string) :
  readyStore st = MemStore mem →
  (isReady (readyStore st) clientId = Some true →
   isReady (readyStore (run proc st evs)) clientId = Some true)
  ∧ (isReady (readyStore st) clientId = Some false →
     Forall (λ ev, ¬ announces proc clientId ev) evs →
     isReady (readyStore (run proc st evs)) clientId = Some false
     ∧ ∀ req uuid ok path,
         readInvokeParams req = (Some clientId, Some path) →
         handleInvoke (run proc st evs) req uuid ok
         = (run proc st evs, Replied (json (error_body "Client not ready") 409))).
Proof.
  revert st mem. induction evs as [|ev evs IH]; intros st mem Hst.
  - split; [done|]. intros Hno _. split; [done|]. intros req uuid ok path Hp.
    by apply (handleInvoke_not_ready _ _ _ _ clientId path).
  - destruct (step_memory proc st ev mem Hst) as (mem' & Hst' & Hmem').
    destruct (IH _ _ Hst') as [IHyes IHno]. cbn [run fold_left]. split.
    + intros Hready. apply IHyes. rewrite Hst' in *. rewrite Hst in Hready.
      cbn in *. destruct Hmem' as [->|(c & -> & _)]; [done|].
      destruct (decide (c = clientId)) as [->|Hne].
      * by rewrite lookup_insert_eq.
      * by rewrite lookup_insert_ne.
    + intros Hno Hquiet. apply Forall_cons in Hquiet as [Hev Hquiet].
      apply IHno; [|done]. rewrite Hst'. rewrite Hst in Hno. cbn in *.
      destruct Hmem' as [->|(c & -> & Hann)]; [done|].
      destruct (decide (c = clientId)) as [->|Hne]; [done|].
      by rewrite lookup_insert_ne.
Qed.

End Announcements.

Section AnnouncementsExamples.
Import Json Js ProxyServer.
#[local] Existing Instance example_runtime.

Lemma init_marks_allowed_workers_only_witness :
  let boot := initial tuned_process ∅ false in
  (handleInit tuned_process boot (init_request "w2")).1 = boot
  ∧ isReady (readyStore (handleInit tuned_process boot (init_request "w3")).1) "w3"
    = Some true.
Proof.
  cbv zeta.
  destruct (init_marks_allowed_workers_only tuned_process
              (initial tuned_process ∅ false) (init_request "w2")) as (_ & H403 & _).
  destruct (init_marks_allowed_workers_only tuned_process
              (initial tuned_process ∅ false) (init_request "w3")) as (_ & _ & H200).
  split.
  - rewrite H403; [done | by vm_compute | by vm_compute].
  - refine (proj1 (proj2 (H200 _ _ _ _))); by vm_compute.
Defined.

Lemma system_init_skips_allow_list_witness :
  let boot := initial tuned_process ∅ false in
  isClientAllowed tuned_process "w2" = false
  ∧ status <$> (handleInit tuned_process boot (init_request "w2")).2 = Some 403
  ∧ isReady (readyStore (handleEvents tuned_process boot (system_request "w2")).1) "w2"
    = Some true.
Proof.
  cbv zeta. split; [by vm_compute|]. split; [by vm_compute|].
  refine (proj1 (system_init_skips_allow_list tuned_process
                   (initial tuned_process ∅ false) (system_request "w2") "w2"
                   (MemStore (<["w2" := true]> ∅)) _ _)).
  - repeat split; by vm_compute.
  - by vm_compute.
Defined.

Lemma readiness_follows_announcements_witness :
  isReady (readyStore
             (run plain_process (initial plain_process ∅ false)
                [EvInit (init_request "w1");
                 EvInvoke (invoke_request "w1" "/hello") "r1" true;
                 EvTimeout 0])) "w2" = Some false.
Proof.
  refine (proj1 (proj2 (readiness_follows_announcements plain_process _
                          (initial plain_process ∅ false) ∅ "w2" eq_refl) _ _)).
  - by vm_compute.
  - repeat constructor; cbn; by vm_compute.
Defined.

End AnnouncementsExamples.

(** ** Whole invocations, the router and the access issuer *)

Section Invocations.
Import Json Js ProxyServer.
Context {rt : Runtime}.

Lemma handleInvoke_awaiting st req uuid clientId path :
  Inv st →
  readInvokeParams req = (Some clientId, Some path) →
  isReady (readyStore st) clientId = Some true →
  let st1 := (handleInvoke st req uuid true).1 in
  (handleInvoke st req uuid true).2 = Awaiting uuid (next_promise st)
  ∧ pending st1 !! uuid
    = Some {| resolve := next_promise st; reject := next_promise st;
              timer := next_timer st |}
  ∧ timers st1 = <[next_timer st :=
                     {| timer_delay := default_timeoutMs; timer_requestId := uuid;
                        timer_reject := next_promise st |}]> (timers st)
  ∧ timers st !! next_timer st = None
  ∧ Inv st1.
Proof.
  intros HI Hp Hr st1. subst st1.
  pose proof (Inv_handleInvoke req uuid true st HI) as HI1.
  rewrite (handleInvoke_ready _ _ _ _ _ _ Hp Hr) in *. cbn in *.
  rewrite lookup_insert_eq.
  split; [done|]. split; [done|]. split; [done|]. split; [|exact HI1].
  destruct (timers st !! next_timer st) as [cb|] eqn:E; [|done].
  apply (inv_timer st HI) in E as [_ E]. lia.
Qed.

Lemma Response_status_accepted (n : number) (z : Z) :
  integer_value n = Some z → 200 ≤ z ≤ 599 → z ≠ 204 → z ≠ 205 → z ≠ 304 →
  Response_status n = Some z.
Proof.
  intros Hn Hz H204 H205 H304. unfold Response_status, status_in_range, null_body_status.
  rewrite Hn.
  destruct (Z.leb_spec 200 z), (Z.leb_spec z 599); try lia. cbn [andb].
  destruct (Z.eqb_spec z 204), (Z.eqb_spec z 205), (Z.eqb_spec z 304); try lia.
  reflexivity.
Qed.

Lemma Response_status_refused (n : number) (z : Z) :
  integer_value n = Some z → ¬ 200 ≤ z ≤ 599 → ¬ 200 ≤ z mod 65536 ≤ 599 → z ≠ 101 →
  Response_status n = None.
Proof.
  intros Hn Hz Hw H101. unfold Response_status, status_in_range. rewrite Hn.
  assert ((200 <=? z) && (z <=? 599) = false) as ->.
  { destruct (Z.leb_spec 200 z), (Z.leb_spec z 599); try reflexivity. lia. }
  assert ((200 <=? z mod 65536) && (z mod 65536 <=? 599) = false) as ->.
  { destruct (Z.leb_spec 200 (z mod 65536)), (Z.leb_spec (z mod 65536) 599);
      try reflexivity. lia. }
  destruct (Z.eqb_spec z 101); [lia | reflexivity].
Qed.

(** X6: an invocation for a ready worker whose publish succeeds waits on a
    promise that is unsettled; when the response event for its requestId
    arrives, that promise is fulfilled with the status and body of the
    event (200 and null where the event gives none), the entry is out of the
    table and the armed timers are those from before the invocation. The
    waiting handler then answers with that body and status when the status
    is an integer from 200 to 599 other than 204, 205 and 304; when it is an
    integer outside 200 to 599 (also modulo 2^16, and not 101) the
    [Response] constructor throws inside the [try] and the handler answers
    504 Gateway Timeout, although the response has arrived. *)
Theorem invoke_then_response_replies (proc : Process) (db : gmap string string)
    (connected : bool) (evs : list Event) (req wreq : Request)
    (uuid clientId path : string) (data : value) :
  let st := run proc (initial proc db connected) evs in
  readInvokeParams req = (Some clientId, Some path) →
  isReady (readyStore st) clientId = Some true →
  response_event proc wreq uuid data →
  let st1 := (handleInvoke st req uuid true).1 in
  let st2 := (handleEvents proc st1 wreq).1 in
  let outcome := Resolved (response_status data) (response_body data) in
  ∃ p, (handleInvoke st req uuid true).2 = Awaiting uuid p
       ∧ settled_as st1 p = None
       ∧ settled_as st2 p = Some outcome
       ∧ pending st2 !! uuid = None
       ∧ timers st2 = timers st
       ∧ (∀ z, integer_value (response_status data) = Some z →
            200 ≤ z ≤ 599 → z ≠ 204 → z ≠ 205 → z ≠ 304 →
            handleInvoke_resume outcome = json (response_body data) z)
       ∧ (∀ z, integer_value (response_status data) = Some z →
            ¬ 200 ≤ z ≤ 599 → ¬ 200 ≤ z mod 65536 ≤ 599 → z ≠ 101 →
            handleInvoke_resume outcome = json (error_body "Gateway Timeout") 504).
Proof.
  intros st Hp Hr Hev st1 st2 outcome.
  assert (Inv st) as HI by apply Inv_run, Inv_initial.
  destruct (handleInvoke_awaiting st req uuid clientId path HI Hp Hr)
    as (Hres & He & Ht & Hfresh & HI1).
  fold st1 in He, Ht, HI1.
  destruct (resolve_path proc st1 wreq uuid data _ HI1 Hev He)
    as (Hp2 & Ht2 & Hs2 & _ & _).
  fold st2 in Hp2, Ht2, Hs2. cbn [resolve timer] in *.
  destruct (entry_unsettled st1 uuid _ HI1 He) as [Hun _]. cbn [resolve] in Hun.
  exists (next_promise st). split; [exact Hres|].
  split; [|split; [|split; [|split; [|split]]]].
  - unfold settled_as. by rewrite Hun.
  - unfold settled_as. by rewrite Hs2.
  - rewrite Hp2. apply lookup_delete_eq.
  - rewrite Ht2, Ht, delete_insert_eq. by apply delete_id.
  - intros z Hz Hrange H204 H205 H304. unfold outcome, handleInvoke_resume.
    by rewrite (Response_status_accepted _ z Hz Hrange H204 H205 H304).
  - intros z Hz Hout Hwrap H101. unfold outcome, handleInvoke_resume.
    by rewrite (Response_status_refused _ z Hz Hout Hwrap H101).
Qed.

(** X7: an invocation for a ready worker whose publish succeeds and whose
    timer elapses before any response is rejected with Gateway Timeout: the
    waiting handler answers 504 with that error, the entry is out of the
    table, and a response for the requestId that arrives afterwards changes
    nothing. *)
Theorem invoke_then_timeout_replies_504 (proc : Process) (db : gmap string string)
    (connected : bool) (evs : list Event) (req : Request)
    (uuid clientId path : string) :
  let st := run proc (initial proc db connected) evs in
  readInvokeParams req = (Some clientId, Some path) →
  isReady (readyStore st) clientId = Some true →
  let st1 := (handleInvoke st req uuid true).1 in
  ∃ p e, (handleInvoke st req uuid true).2 = Awaiting uuid p
         ∧ pending st1 !! uuid = Some e ∧ resolve e = p
         ∧ let st2 := on_timeout (timer e) st1 in
           settled_as st2 p = Some (Rejected "Gateway Timeout")
           ∧ handleInvoke_resume (Rejected "Gateway Timeout")
             = json (error_body "Gateway Timeout") 504
           ∧ pending st2 !! uuid = None
           ∧ ∀ wreq data, response_event proc wreq uuid data →
               (handleEvents proc st2 wreq).1 = st2.
Proof.
  intros st Hp Hr st1.
  assert (Inv st) as HI by apply Inv_run, Inv_initial.
  destruct (handleInvoke_awaiting st req uuid clientId path HI Hp Hr)
    as (Hres & He & Ht & Hfresh & HI1).
  fold st1 in He, Ht, HI1.
  eexists _, _. split; [exact Hres|]. split; [exact He|]. split; [reflexivity|].
  cbv zeta. cbn [timer]. set (st2 := on_timeout (next_timer st) st1).
  assert (timers st1 !! next_timer st
          = Some {| timer_delay := default_timeoutMs; timer_requestId := uuid;
                    timer_reject := next_promise st |}) as Hcb.
  { rewrite Ht. apply lookup_insert_eq. }
  destruct (timeout_path proc st1 _ _ HI1 Hcb) as (_ & Hp2 & Hs2 & _ & Hlate).
  fold st2 in Hp2, Hs2, Hlate. cbn in Hp2, Hs2, Hlate.
  split; [|split; [|split]].
  - unfold settled_as. by rewrite Hs2.
  - reflexivity.
  - rewrite Hp2. apply lookup_delete_eq.
  - exact Hlate.
Qed.

(** X8: [handleInvoke] touches nothing that belongs to another request: in
    every reachable state, whatever the request and the outcome of the
    publish, every entry under another requestId, every timer that was armed
    and every promise that existed is after the call what it was before, and
    at most one message is handed to the transport. *)
Theorem invoke_leaves_others_alone (proc : Process) (db : gmap string string)
    (connected : bool) (evs : list Event) (req : Request) (uuid : string)
    (publish_ok : bool) :
  let st := run proc (initial proc db connected) evs in
  let st' := (handleInvoke st req uuid publish_ok).1 in
  (∀ other, other ≠ uuid → pending st' !! other = pending st !! other)
  ∧ (∀ t cb, timers st !! t = Some cb → timers st' !! t = Some cb)
  ∧ (∀ p calls, promises st !! p = Some calls → promises st' !! p = Some calls)
  ∧ (published st' = published st ∨ ∃ m, published st' = published st ++ [m])
  ∧ readyStore st' = readyStore st.
Proof.
  intros st st'.
  assert (Inv st) as HI by apply Inv_run, Inv_initial.
  assert (∀ t cb, timers st !! t = Some cb → t ≠ next_timer st) as Htimer.
  { intros t cb Hcb. apply (inv_timer st HI) in Hcb as [_ ?]. lia. }
  assert (∀ p calls, promises st !! p = Some calls → p ≠ next_promise st) as Hprom.
  { intros p calls Hc. apply (inv_promise st HI) in Hc as [_ ?]. lia. }
  split; [|split; [|split; [|split]]]; subst st'; try apply handleInvoke_readyStore;
    unfold handleInvoke;
    destruct (readInvokeParams req) as [[clientId|] [path|]]; try (by auto);
    destruct (isReady (readyStore st) clientId) as [[]|]; try (by auto);
    destruct publish_ok; cbn; unfold cancel; cbn; rewrite ?lookup_insert_eq; cbn;
    try (by eauto).
  - intros other Hne. by rewrite lookup_insert_ne.
  - intros other Hne. by rewrite lookup_delete_ne, lookup_insert_ne.
  - intros t cb Hcb. pose proof (Htimer _ _ Hcb). by rewrite lookup_insert_ne.
  - intros t cb Hcb. pose proof (Htimer _ _ Hcb).
    by rewrite lookup_delete_ne, lookup_insert_ne.
  - intros p calls Hc. pose proof (Hprom _ _ Hc). by rewrite lookup_insert_ne.
  - intros p calls Hc. pose proof (Hprom _ _ Hc). by rewrite lookup_insert_ne.
Qed.

End Invocations.

Section InvocationsExamples.
Import Json Js ProxyServer.
#[local] Existing Instance example_runtime.

Lemma invoke_then_response_replies_witness :
  settled_as (handleEvents plain_process waiting_state
                (response_request plain_process hello_response)).1 0%nat
  = Some (Resolved (int 200) (JObj [("msg", JStr "hello")]))
  ∧ handleInvoke_resume (Resolved (int 200) (JObj [("msg", JStr "hello")]))
    = json (JObj [("msg", JStr "hello")]) 200.
Proof.
  destruct (invoke_then_response_replies plain_process ∅ false
              [EvInit (init_request "w1")] (invoke_request "w1" "/hello")
              (response_request plain_process hello_response)
              "r1" "w1" "/hello" (Some hello_response) eq_refl
              ltac:(by vm_compute) response_request_event)
    as (p & Hres & _ & Hs & _ & _ & Hok & _).
  injection Hres as <-. split; [exact Hs|].
  apply (Hok 200); [reflexivity | lia | lia | lia | lia].
Defined.

Lemma invoke_then_timeout_replies_504_witness :
  settled_as (on_timeout 0 waiting_state) 0%nat = Some (Rejected "Gateway Timeout")
  ∧ pending (on_timeout 0 waiting_state) !! "r1" = None.
Proof.
  destruct (invoke_then_timeout_replies_504 plain_process ∅ false
              [EvInit (init_request "w1")] (invoke_request "w1" "/hello")
              "r1" "w1" "/hello" eq_refl ltac:(by vm_compute))
    as (p & e & Hres & He & Hpe & Hs & _ & Hgone & _).
  injection Hres as <-.
  assert (e = {| resolve := 0; reject := 0; timer := 0 |}) as ->.
  { assert (Some e = Some {| resolve := 0; reject := 0; timer := 0 |}) as [= ->]; [|done].
    rewrite <- He. by vm_compute. }
  split; [exact Hs | exact Hgone].
Defined.

End InvocationsExamples.

Section Reclaim.
Import Json Js ProxyServer.
Context {rt : Runtime}.

Lemma on_timeout_timers t st : timers (on_timeout t st) = delete t (timers st).
Proof.
  unfold on_timeout. destruct (timers st !! t) eqn:E; [done|].
  symmetry. by apply delete_id.
Qed.

Lemma on_timeout_keeps_settled t st p o :
  Inv st → promises st !! p = Some [o] → promises (on_timeout t st) !! p = Some [o].
Proof.
  intros HI Hp. unfold on_timeout. destruct (timers st !! t) as [cb|] eqn:E; [|done].
  cbn. rewrite lookup_alter_ne; [done|]. intros Heq.
  apply (inv_timer st HI) in E as [E _]. congruence.
Qed.

Lemma fire_all_Inv l st : Inv st → Inv (fire_all l st).
Proof.
  revert st. induction l as [|t l IH]; intros st HI; [done|].
  cbn. apply IH. by apply Inv_on_timeout.
Qed.

Lemma fire_all_keeps_settled l st p o :
  Inv st → promises st !! p = Some [o] → promises (fire_all l st) !! p = Some [o].
Proof.
  revert st. induction l as [|t l IH]; intros st HI Hp; [done|].
  cbn. apply IH; [by apply Inv_on_timeout | by apply on_timeout_keeps_settled].
Qed.

Lemma fire_all_timers l st t :
  timers (fire_all l st) !! t = if decide (t ∈ l) then None else timers st !! t.
Proof.
  revert st. induction l as [|t0 l IH]; intros st.
  - rewrite decide_False; [done | apply not_elem_of_nil].
  - cbn [fire_all fold_left]. fold (fire_all l (on_timeout t0 st)).
    rewrite IH, on_timeout_timers.
    destruct (decide (t ∈ l)) as [Hin|Hout].
    + rewrite decide_True; [done | by right].
    + destruct (decide (t0 = t)) as [->|Hne].
      * rewrite decide_True; [apply lookup_delete_eq | by left].
      * rewrite decide_False; [by apply lookup_delete_ne|].
        rewrite elem_of_cons. intros [?|?]; done.
Qed.

Lemma fire_all_rejects l st t cb :
  Inv st → timers st !! t = Some cb → t ∈ l →
  promises (fire_all l st) !! timer_reject cb = Some [Rejected "Gateway Timeout"].
Proof.
  revert st. induction l as [|t0 l IH]; intros st HI Hcb Hin.
  - by apply elem_of_nil in Hin.
  - cbn [fire_all fold_left]. fold (fire_all l (on_timeout t0 st)).
    destruct (decide (t0 = t)) as [->|Hne].
    + apply fire_all_keeps_settled; [by apply Inv_on_timeout|].
      by destruct (timeout_path plain_process st t cb HI Hcb) as (_ & _ & Hs & _).
    + apply elem_of_cons in Hin as [?|Hin]; [done|].
      apply IH; [by apply Inv_on_timeout | | done].
      rewrite on_timeout_timers. by rewrite lookup_delete_ne.
Qed.

Lemma armed_listed st t cb :
  timers st !! t = Some cb → t ∈ map fst (map_to_list (timers st)).
Proof.
  intros Hcb. apply list_elem_of_In. apply (in_map fst _ (t, cb)).
  apply list_elem_of_In. by apply elem_of_map_to_list.
Qed.

(** X9: no entry outlives its timer: from any reachable state, once every
    armed timer has elapsed the pending table is empty and no timer is
    armed; the promise of every entry that was still in the table has been
    rejected with Gateway Timeout, and every promise that was settled before
    keeps the settlement it had. *)
Theorem timers_reclaim_every_entry (proc : Process) (db : gmap string string)
    (connected : bool) (evs : list Event) :
  let st := run proc (initial proc db connected) evs in
  let st' := drain st in
  pending st' = ∅
  ∧ timers st' = ∅
  ∧ (∀ rid e, pending st !! rid = Some e →
       promises st' !! resolve e = Some [Rejected "Gateway Timeout"])
  ∧ (∀ p o, promises st !! p = Some [o] → promises st' !! p = Some [o]).
Proof.
  intros st st'.
  assert (Inv st) as HI by apply Inv_run, Inv_initial.
  assert (Inv st') as HI' by apply fire_all_Inv, HI.
  assert (timers st' = ∅) as Hnone.
  { apply map_eq. intros t. rewrite lookup_empty. unfold st', drain.
    rewrite fire_all_timers. case_decide as Hin; [done|].
    destruct (timers st !! t) as [cb|] eqn:E; [|done].
    destruct Hin. by eapply armed_listed. }
  split; [|split; [exact Hnone|split]].
  - apply map_eq. intros rid. rewrite lookup_empty.
    destruct (pending st' !! rid) as [e|] eqn:E; [|done].
    apply (inv_entry st' HI') in E as (cb & Hcb & _).
    rewrite Hnone, lookup_empty in Hcb. done.
  - intros rid e He.
    destruct (inv_entry st HI _ _ He) as (cb & Hcb & <- & _).
    apply (fire_all_rejects _ st (timer e) cb HI Hcb). by eapply armed_listed.
  - intros p o Hp. by apply fire_all_keeps_settled.
Qed.

(** X10: the router changes the state only on a POST: any other request is
    answered by /health (200) or by the 404 of [notFound] with the state as
    it was; a path other than the five routes is answered 404 with the state
    as it was; POST /auth never changes the state; and POST /events is
    answered 200. *)
Theorem router_touches_state_on_post_only (proc : Process) (st : State)
    (req : Request) (uuid : string) (publish_ok : bool) (token : TokenOutcome) :
  (method req ≠ "POST" →
   fetch proc st req uuid publish_ok token
   = (st, Replied (json (JObj [("status", JStr "ok")]) 200))
   ∨ fetch proc st req uuid publish_ok token = (st, Replied notFound))
  ∧ (pathname req ∉ ["/health"; "/auth"; "/init"; "/invoke"; "/events"] →
     fetch proc st req uuid publish_ok token = (st, Replied notFound))
  ∧ status notFound = 404
  ∧ (method req = "POST" → pathname req = "/auth" →
     fetch proc st req uuid publish_ok token = (st, Replied (handleAuth proc req token)))
  ∧ (method req = "POST" → pathname req = "/events" →
     ∃ st', fetch proc st req uuid publish_ok token
            = (st', Replied {| status := 200; content_type := None; body := None |})).
Proof.
  split; [|split; [|split; [done|split]]].
  - intros Hm. apply String.eqb_neq in Hm. unfold fetch. rewrite Hm. cbn [andb].
    destruct (String.eqb (method req) "GET" && String.eqb (pathname req) "/health");
      auto.
  - intros Hpath. rewrite !not_elem_of_cons in Hpath.
    destruct Hpath as (H1 & H2 & H3 & H4 & H5 & _).
    apply String.eqb_neq in H1, H2, H3, H4, H5.
    unfold fetch. by rewrite H1, H2, H3, H4, H5, !andb_false_r.
  - intros Hm Hp. unfold fetch. by rewrite Hm, Hp.
  - intros Hm Hp. unfold fetch. rewrite Hm, Hp. cbn. eauto.
Qed.

(** X11: /auth answers 200 only when every check has passed: the API key
    check, a clientId in the body, the allow-list, and a minted token with a
    url; the answer then names the system hub, that url and the userId
    [client:<clientId>]. When the checks pass and minting throws or gives no
    url the answer is 502, and no request is answered with any status other
    than 200, 400, 401, 403 and 502. *)
Theorem auth_issues_after_all_checks (proc : Process) (req : Request)
    (token : TokenOutcome) :
  (status (handleAuth proc req token) = 200 →
   verifyApiKey proc req = true
   ∧ nonempty (body_clientId req) = true
   ∧ isClientAllowed proc (body_clientId req) = true
   ∧ ∃ url, token = TokenUrl (Some url) ∧ nonempty url = true
            ∧ handleAuth proc req token
              = json (JObj [("system", JObj [("hub", JStr "system"); ("url", JStr url)]);
                            ("userId", JStr ("client:" +:+ body_clientId req))]) 200)
  ∧ (verifyApiKey proc req = true → nonempty (body_clientId req) = true →
     isClientAllowed proc (body_clientId req) = true →
     (∀ url, token = TokenUrl (Some url) → nonempty url = false) →
     handleAuth proc req token = json (error_body "Failed to mint access token") 502)
  ∧ (nonempty (body_clientId req) = false → verifyApiKey proc req = true →
     handleAuth proc req token = json (error_body "clientId is required") 400)
  ∧ status (handleAuth proc req token) ∈ [200; 400; 401; 403; 502].
Proof.
  unfold handleAuth.
  destruct (verifyApiKey proc req); cbn [negb];
    [|split; [|split; [|split]]; intros; simplify_eq/=; try done;
      repeat constructor].
  destruct (nonempty (body_clientId req)); cbn [negb];
    [|split; [|split; [|split]]; intros; simplify_eq/=; try done;
      repeat constructor].
  destruct (isClientAllowed proc (body_clientId req)); cbn [negb];
    [|split; [|split; [|split]]; intros; simplify_eq/=; try done;
      repeat constructor].
  destruct token as [|[url|]]; [| destruct (nonempty url) eqn:Hurl |];
    (split; [|split; [|split]]); intros; simplify_eq/=; try done;
    try (repeat constructor).
  - repeat split. by exists url.
  - match goal with H : ∀ u, _ → _ |- _ => specialize (H url eq_refl) end.
    congruence.
Qed.

End Reclaim.

Section ReclaimExamples.
Import Json Js ProxyServer.
#[local] Existing Instance example_runtime.

Lemma router_touches_state_on_post_only_witness :
  fetch plain_process waiting_state
    {| method := "DELETE"; pathname := "/invoke";
       searchParams := [("clientId", "w1"); ("path", "/hello")];
       headers := ∅; text := EmptyString; json_body := None |} "r2" true TokenThrows
  = (waiting_state, Replied notFound).
Proof.
  destruct (router_touches_state_on_post_only plain_process waiting_state
              {| method := "DELETE"; pathname := "/invoke";
                 searchParams := [("clientId", "w1"); ("path", "/hello")];
                 headers := ∅; text := EmptyString; json_body := None |} "r2" true TokenThrows)
    as (Hget & _).
  destruct Hget as [H|H]; [discriminate | discriminate H | exact H].
Defined.

Lemma auth_issues_after_all_checks_witness :
  let keyed := <["x-api-key" := "s3cret"]> ∅ in
  let body := JObj [("clientId", JStr "w1")] in
  status (handleAuth tuned_process (post_json "/auth" [] keyed body) TokenThrows) = 502.
Proof.
  cbv zeta.
  destruct (auth_issues_after_all_checks tuned_process
              (post_json "/auth" [] (<["x-api-key" := "s3cret"]> ∅)
                 (JObj [("clientId", JStr "w1")])) TokenThrows)
    as (_ & H502 & _).
  rewrite H502; [done | by vm_compute | by vm_compute | by vm_compute | discriminate].
Defined.

End ReclaimExamples.

(** ** The forwarder: what it sends to the local API and what it answers *)

Section ForwarderFacts.
Import Json Js ProxyClient.
Context {rt : Runtime}.

(** X12: the local call that the forwarder builds carries a body exactly
    when it carries the JSON content type; a GET or HEAD call never carries
    one, nor does a request whose body is missing or null; a missing or
    empty method becomes GET; and any other call with a body sends that body
    serialized, to the local URL joined with the path. *)
Theorem local_call_body_rules (LOCAL_API_URL : string) (reqMsg : value)
    (c : LocalCall) :
  local_call LOCAL_API_URL reqMsg = Returned c →
  (call_body c = None ↔ call_content_type c = None)
  ∧ (call_method c = "GET" ∨ call_method c = "HEAD" → call_body c = None)
  ∧ (get "body" reqMsg = None ∨ get "body" reqMsg = Some JNull → call_body c = None)
  ∧ (truthy (get "method" reqMsg) = false → call_method c = "GET")
  ∧ (∀ b, get "body" reqMsg = Some b → b ≠ JNull →
       call_method c ≠ "GET" → call_method c ≠ "HEAD" →
       call_body c = Some (JSON_stringify b)
       ∧ call_content_type c = Some "application/json")
  ∧ ∃ path, get "path" reqMsg = Some (JStr path)
            ∧ call_url c = joinUrl LOCAL_API_URL path.
Proof.
  unfold local_call.
  destruct (get "path" reqMsg) as [[| | |path| |]|]; try discriminate.
  assert (∀ m, Returned
            {| call_url := joinUrl LOCAL_API_URL path; call_method := m;
               call_content_type :=
                 if match get "body" reqMsg with
                    | None | Some JNull => false
                    | Some _ => negb (String.eqb m "GET") && negb (String.eqb m "HEAD")
                    end then Some "application/json" else None;
               call_body :=
                 if match get "body" reqMsg with
                    | None | Some JNull => false
                    | Some _ => negb (String.eqb m "GET") && negb (String.eqb m "HEAD")
                    end
                 then match get "body" reqMsg with
                      | Some b => Some (JSON_stringify b)
                      | None => None
                      end
                 else None |} = Returned c →
          (truthy (get "method" reqMsg) = false → m = "GET") →
          (call_body c = None ↔ call_content_type c = None)
          ∧ (call_method c = "GET" ∨ call_method c = "HEAD" → call_body c = None)
          ∧ (get "body" reqMsg = None ∨ get "body" reqMsg = Some JNull →
             call_body c = None)
          ∧ (truthy (get "method" reqMsg) = false → call_method c = "GET")
          ∧ (∀ b, get "body" reqMsg = Some b → b ≠ JNull →
               call_method c ≠ "GET" → call_method c ≠ "HEAD" →
               call_body c = Some (JSON_stringify b)
               ∧ call_content_type c = Some "application/json")
          ∧ ∃ p, Some (JStr path) = Some (JStr p)
                 ∧ call_url c = joinUrl LOCAL_API_URL p) as Hcore.
  { intros m [= <-] Hget. cbn.
    split; [|split; [|split; [|split; [|split]]]].
    - destruct (get "body" reqMsg) as [[]|]; try done;
        destruct (negb (String.eqb m "GET") && negb (String.eqb m "HEAD")); done.
    - intros [->| ->]; by destruct (get "body" reqMsg) as [[]|].
    - by intros [->| ->].
    - exact Hget.
    - intros b -> Hb Hg Hh.
      apply String.eqb_neq in Hg, Hh. rewrite Hg, Hh. cbn. by destruct b.
    - by eauto. }
  destruct (truthy (get "method" reqMsg)) eqn:Htruthy.
  - destruct (get "method" reqMsg) as [[| | |m| |]|]; try discriminate.
    intros Hc. by apply (Hcore _ Hc).
  - intros Hc. by apply (Hcore _ Hc).
Qed.

Lemma is_string_spec (s : string) (v : value) :
  is_string s v = true ↔ v = Some (JStr s).
Proof.
  destruct v as [[| | |s'| |]|]; cbn; try (split; [discriminate | congruence]).
  rewrite String.eqb_eq. split; [by intros -> | by intros [= ->]].
Qed.

Lemma onMessage_cases (LOCAL_API_URL data : string)
    (fetched : Completion FetchResponse) :
  onMessage LOCAL_API_URL data fetched = []
  ∨ ∃ m r,
      JSON_parse data = Some m
      ∧ get "type" (Some m) = Some (JStr "message")
      ∧ is_object_request (frame_payload (Some m)) = true
      ∧ forwardToLocal LOCAL_API_URL (frame_payload (Some m)) fetched = Returned r
      ∧ onMessage LOCAL_API_URL data fetched = [JSON_stringify (outbound r)].
Proof.
  unfold onMessage.
  destruct (JSON_parse data) as [m|]; [|by left].
  destruct (is_string "system" _ && is_string "connected" _); [by left|].
  destruct (is_string "ack" _); [by left|].
  destruct (is_string "message" _) eqn:Hmsg; [|by left].
  apply is_string_spec in Hmsg.
  destruct (truthy (frame_payload (Some m))
            && JsType_eqb (typeof (frame_payload (Some m))) TObject
            && is_string "request" (get "type" (frame_payload (Some m)))) eqn:Hreq;
    [|by left].
  destruct (forwardToLocal LOCAL_API_URL (frame_payload (Some m)) fetched)
    as [r|e] eqn:Hfw; [|by left].
  right. by exists m, r.
Qed.

(** X13: [onMessage] hands at most one frame to [ws.send], and a frame it
    hands over answers the message it was given: the data parse to a frame
    of type [message], the payload of that frame is an object of type
    [request], [forwardToLocal] returned an envelope for that payload, and
    what is sent is the [sendToGroup] to group [server] whose data is the
    response object of that envelope, with the requestId of the payload. A
    frame of type [message] whose payload is not such an object (a chat
    message, say) is answered with nothing, and so are data on which
    [JSON.parse] throws and acks. *)
Theorem onMessage_answers_requests_only (LOCAL_API_URL data : string)
    (fetched : Completion FetchResponse) :
  (length (onMessage LOCAL_API_URL data fetched) ≤ 1)%nat
  ∧ (∀ sent, sent ∈ onMessage LOCAL_API_URL data fetched →
     ∃ m r,
       JSON_parse data = Some m
       ∧ get "type" (Some m) = Some (JStr "message")
       ∧ is_object_request (frame_payload (Some m)) = true
       ∧ forwardToLocal LOCAL_API_URL (frame_payload (Some m)) fetched = Returned r
       ∧ res_requestId r = get "requestId" (frame_payload (Some m))
       ∧ sent
         = JSON_stringify
             (JObj [("type", JStr "sendToGroup"); ("group", JStr "server");
                    ("dataType", JStr "json");
                    ("data",
                     JObj ([("type", JStr "response")]
                           ++ optional_field "requestId"
                                (get "requestId" (frame_payload (Some m)))
                           ++ [("status", JNum (res_status r));
                               ("body", res_body r)]))]))
  ∧ (∀ m, JSON_parse data = Some m →
       is_object_request (frame_payload (Some m)) = false →
       onMessage LOCAL_API_URL data fetched = [])
  ∧ (JSON_parse data = None → onMessage LOCAL_API_URL data fetched = [])
  ∧ (∀ m, JSON_parse data = Some m → get "type" (Some m) = Some (JStr "ack") →
       onMessage LOCAL_API_URL data fetched = []).
Proof.
  split; [|split; [|split; [|split]]].
  - destruct (onMessage_cases LOCAL_API_URL data fetched)
      as [->|(m & r & _ & _ & _ & _ & ->)]; cbn; lia.
  - intros sent Hsent.
    destruct (onMessage_cases LOCAL_API_URL data fetched)
      as [Hnone|(m & r & Hm & Hty & Hreq & Hfw & Hout)].
    { rewrite Hnone in Hsent. by apply elem_of_nil in Hsent. }
    rewrite Hout in Hsent. apply list_elem_of_singleton in Hsent as ->.
    exists m, r. split; [done|]. split; [done|]. split; [done|]. split; [done|].
    assert (res_requestId r = get "requestId" (frame_payload (Some m))) as Hid.
    { unfold forwardToLocal in Hfw.
      destruct (local_call LOCAL_API_URL (frame_payload (Some m))); [|done].
      destruct fetched as [resp|err]; [destruct (read_body resp)|];
        by injection Hfw as <-. }
    split; [exact Hid|]. unfold outbound, response_value. by rewrite Hid.
  - intros m Hm Hno. unfold onMessage. rewrite Hm.
    unfold is_object_request in Hno. rewrite Hno. by repeat case_match.
  - intros Hbad. unfold onMessage. by rewrite Hbad.
  - intros m Hm Hack. unfold onMessage. rewrite Hm, Hack.
    by destruct (is_string "system" _ && is_string "connected" _).
Qed.

(** X14: a frame whose payload is tagged [request] but whose [path] is not a
    string, or whose [method] is neither absent, empty nor a string, gets
    no response at all: the method call on the ill-typed field throws before
    the [try] block of [forwardToLocal], and the [catch] of [onMessage] only
    logs. *)
Theorem ill_typed_request_gets_no_answer (LOCAL_API_URL data : string)
    (fetched : Completion FetchResponse) (m : JSON) (fields : list (string * JSON)) :
  JSON_parse data = Some m →
  get "type" (Some m) = Some (JStr "message") →
  get "data" (Some m) = Some (JObj fields) →
  (∀ s, lookup_field "path" fields ≠ Some (JStr s))
  ∨ (truthy (lookup_field "method" fields) = true
     ∧ ∀ s, lookup_field "method" fields ≠ Some (JStr s)) →
  (∃ e, forwardToLocal LOCAL_API_URL (Some (JObj fields)) fetched = Thrown e)
  ∧ onMessage LOCAL_API_URL data fetched = [].
Proof.
  intros Hparse Hty Hdata Hbad.
  assert (∃ e, forwardToLocal LOCAL_API_URL (Some (JObj fields)) fetched = Thrown e)
    as [e He].
  { unfold forwardToLocal, local_call. cbn [get].
    destruct Hbad as [Hpath|[Htruthy Hmeth]].
    - destruct (lookup_field "path" fields) as [[| | |s| |]|]; eauto.
      by destruct (Hpath s).
    - destruct (lookup_field "path" fields) as [[| | |s| |]|]; eauto.
      rewrite Htruthy.
      destruct (lookup_field "method" fields) as [[| | |s'| |]|]; eauto.
      by destruct (Hmeth s'). }
  split; [by eauto|].
  unfold onMessage. rewrite Hparse, Hty.
  change (is_string "system" (Some (JStr "message"))) with false.
  change (is_string "ack" (Some (JStr "message"))) with false.
  change (is_string "message" (Some (JStr "message"))) with true.
  cbn [andb].
  assert (frame_payload (Some m) = Some (JObj fields)) as ->.
  { unfold frame_payload. rewrite Hdata. by repeat case_match. }
  rewrite He. by case_match.
Qed.

End ForwarderFacts.

Section ForwarderFactsExamples.
Import Json Js ProxyClient.
#[local] Existing Instance example_runtime.

Lemma local_call_body_rules_witness :
  ∃ c, local_call "http://localhost:3000/"
         (Some (JObj [("type", JStr "request"); ("method", JStr "post");
                      ("path", JStr "/items"); ("body", JObj [("n", JNum (int 1))])]))
       = Returned c
       ∧ call_body c = Some (stringify (JObj [("n", JNum (int 1))]))
       ∧ call_content_type c = Some "application/json".
Proof.
  destruct (local_call "http://localhost:3000/"
              (Some (JObj [("type", JStr "request"); ("method", JStr "post");
                           ("path", JStr "/items"); ("body", JObj [("n", JNum (int 1))])])))
    as [c|e] eqn:Hc; [|by vm_compute in Hc].
  exists c. split; [reflexivity|].
  destruct (local_call_body_rules _ _ _ Hc) as (_ & _ & _ & _ & Hbody & _).
  vm_compute in Hc. injection Hc as <-.
  apply (Hbody (JObj [("n", JNum (int 1))])); [reflexivity | discriminate ..].
Defined.

Lemma onMessage_answers_requests_only_witness :
  onMessage "http://localhost:3000"
    (stringify (JObj [("type", JStr "message"); ("from", JStr "group");
                      ("dataType", JStr "json");
                      ("data", JObj [("type", JStr "chat"); ("text", JStr "hi")])]))
    (Thrown refused) = []
  ∧ ∃ r, forwardToLocal "http://localhost:3000" (Some (request_value hello_request))
           (Thrown refused) = Returned r
         ∧ onMessage "http://localhost:3000" (stringify hello_frame) (Thrown refused)
           = [stringify
                (JObj [("type", JStr "sendToGroup"); ("group", JStr "server");
                       ("dataType", JStr "json");
                       ("data",
                        JObj [("type", JStr "response"); ("requestId", JStr "r1");
                              ("status", JNum (res_status r));
                              ("body", res_body r)])])].
Proof.
  split.
  - refine (proj1 (proj2 (proj2 (onMessage_answers_requests_only
                    "http://localhost:3000" _ (Thrown refused))))
                  (JObj [("type", JStr "message"); ("from", JStr "group");
                         ("dataType", JStr "json");
                         ("data", JObj [("type", JStr "chat"); ("text", JStr "hi")])])
                  _ _); by vm_compute.
  - destruct (onMessage "http://localhost:3000" (stringify hello_frame)
                (Thrown refused)) as [|sent l] eqn:Hsend; [by vm_compute in Hsend|].
    destruct (proj1 (proj2 (onMessage_answers_requests_only
                "http://localhost:3000" (stringify hello_frame) (Thrown refused)))
                sent) as (m & r & Hm & _ & _ & Hfw & _ & Hsent).
    { rewrite Hsend. left. }
    assert (m = hello_frame) as ->.
    { assert (Some m = Some hello_frame) as [= ->]; [|done].
      rewrite <- Hm. by vm_compute. }
    exists r. split; [exact Hfw|].
    pose proof (proj1 (onMessage_answers_requests_only
                  "http://localhost:3000" (stringify hello_frame) (Thrown refused)))
      as Hlen.
    rewrite Hsend in Hlen. destruct l; [|cbn in Hlen; lia].
    by rewrite Hsent.
Defined.

Lemma ill_typed_request_gets_no_answer_witness :
  onMessage "http://localhost:3000"
    (stringify (JObj [("type", JStr "message");
                      ("data", JObj [("type", JStr "request");
                                     ("requestId", JStr "r9")])]))
    (Thrown refused) = [].
Proof.
  refine (proj2 (ill_typed_request_gets_no_answer "http://localhost:3000" _
                   (Thrown refused) _ [("type", JStr "request"); ("requestId", JStr "r9")]
                   _ _ _ _)).
  - by vm_compute.
  - reflexivity.
  - reflexivity.
  - left. intros s. discriminate.
Defined.

End ForwarderFactsExamples.

(** ** Strings: URL joining, the hub of an event source, the allow-list *)

Section StringFacts.
Import Json Js ProxyServer ProxyClient.
Local Arguments String.append : simpl nomatch.

Lemma prefix_nil (s : string) : String.prefix EmptyString s = true.
Proof. by destruct s. Qed.

Lemma prefix_app (p s : string) : String.prefix p (p +:+ s) = true.
Proof.
  induction p as [|c p IH]; cbn; [apply prefix_nil|].
  by destruct (ascii_dec c c).
Qed.

Lemma prefix_cons (c d : ascii) (p s : string) :
  String.prefix (String c p) (String d s) = true → c = d ∧ String.prefix p s = true.
Proof. cbn. by destruct (ascii_dec c d). Qed.

Lemma prefix_shorter (p a b : string) :
  (String.length p ≤ String.length a)%nat →
  String.prefix p (a +:+ b) = String.prefix p a.
Proof.
  revert a. induction p as [|c p IH]; intros a Hlen.
  - by rewrite !prefix_nil.
  - destruct a as [|d a]; [cbn in Hlen; lia|]. cbn.
    destruct (ascii_dec c d); [|done]. apply IH. cbn in Hlen. lia.
Qed.

Lemma rev_app_app (a b c : string) :
  String.rev_app (a +:+ b) c = String.rev_app b (String.rev_app a c).
Proof. revert c. induction a as [|x a IH]; intros c; cbn; [done | apply IH]. Qed.

Lemma rev_app_spec (a c : string) : String.rev_app a c = String.rev a +:+ c.
Proof.
  unfold String.rev. revert c. induction a as [|x a IH]; intros c; cbn; [done|].
  rewrite (IH (String x c)), (IH (String x EmptyString)), string_app_assoc. done.
Qed.

Lemma rev_append (a b : string) : String.rev (a +:+ b) = String.rev b +:+ String.rev a.
Proof. unfold String.rev at 1. by rewrite rev_app_app, rev_app_spec. Qed.

Lemma rev_rev (s : string) : String.rev (String.rev s) = s.
Proof.
  induction s as [|c s IH]; [done|].
  change (String.rev (String c s)) with (String.rev_app s (String c EmptyString)).
  rewrite rev_app_spec, rev_append, IH. done.
Qed.

Lemma endsWith_app (b s : string) : endsWith (b +:+ s) s = true.
Proof. unfold endsWith. rewrite rev_append. apply prefix_app. Qed.

(** X15: [joinUrl] puts exactly one slash between its parts: whether the
    base ends with a slash or not and whether the path starts with one or
    not, the result is the base without that slash, one slash, and the path
    without that slash. *)
Theorem joinUrl_single_slash (b p : string) :
  joinUrl (b +:+ "/") (String "/" p) = b +:+ String "/" p
  ∧ (startsWith p "/" = false → joinUrl (b +:+ "/") p = b +:+ String "/" p)
  ∧ (endsWith b "/" = false → joinUrl b (String "/" p) = b +:+ String "/" p)
  ∧ (endsWith b "/" = false → startsWith p "/" = false →
     joinUrl b p = b +:+ String "/" p).
Proof.
  assert (startsWith (String "/" p) "/" = true) as Hslash.
  { unfold startsWith. cbn. apply prefix_nil. }
  unfold joinUrl. rewrite (endsWith_app b "/"), Hslash. cbn [negb andb slice1].
  split; [by rewrite string_app_assoc|]. split; [|split].
  - intros ->. cbn [andb]. by rewrite string_app_assoc.
  - by intros ->.
  - intros -> ->. cbn [negb andb]. done.
Qed.

Lemma joinUrl_single_slash_witness :
  joinUrl "http://localhost:3000" "hello" = "http://localhost:3000/hello"
  ∧ joinUrl "http://localhost:3000" "/hello" = "http://localhost:3000/hello".
Proof.
  destruct (joinUrl_single_slash "http://localhost:3000" "hello") as (_ & _ & H3 & H4).
  split; [apply H4; by vm_compute | apply H3; by vm_compute].
Defined.

Lemma includes_cons (c : ascii) (s p : string) :
  includes (String c s) p = false →
  String.prefix p (String c s) = false ∧ includes s p = false.
Proof. cbn [includes]. by intros [? ?]%orb_false_iff. Qed.

Lemma split_go_no_sep (sep s cur : string) :
  includes s sep = false → split_go sep O cur s = [cur +:+ s].
Proof.
  revert cur. induction s as [|c s IH]; intros cur Hno.
  - cbn. by rewrite string_app_nil_r.
  - apply includes_cons in Hno as [Hp Hno]. cbn [split_go]. rewrite Hp.
    rewrite IH by done. by rewrite string_app_assoc.
Qed.

Lemma split_go_first_hubs (pre cur rest : string) :
  includes (pre +:+ "/hubs") "/hubs/" = false →
  split_go "/hubs/" O cur (pre +:+ "/hubs/" +:+ rest)
  = (cur +:+ pre) :: split_go "/hubs/" O EmptyString rest.
Proof.
  revert cur. induction pre as [|c pre IH]; intros cur Hno.
  - cbn [String.append]. cbn [split_go].
    change (String "/" (String "h" (String "u" (String "b" (String "s" (String "/" rest))))))
      with ("/hubs/" +:+ rest) at 1.
    rewrite prefix_app. cbn. by rewrite string_app_nil_r.
  - change (String c pre +:+ "/hubs") with (String c (pre +:+ "/hubs")) in Hno.
    apply includes_cons in Hno as [Hp Hno].
    change (String c pre +:+ "/hubs/" +:+ rest)
      with (String c (pre +:+ "/hubs/" +:+ rest)).
    cbn [split_go].
    assert (String.prefix "/hubs/" (String c (pre +:+ "/hubs/" +:+ rest)) = false) as ->.
    { etrans; [|exact Hp].
      change (String c (pre +:+ "/hubs/" +:+ rest))
        with (String c pre +:+ "/hubs/" +:+ rest).
      change ("/hubs/" +:+ rest) with ("/hubs" +:+ String "/" rest).
      rewrite <- string_app_assoc.
      change (String c (pre +:+ "/hubs")) with (String c pre +:+ "/hubs").
      apply prefix_shorter. rewrite string_length_app. cbn. lia. }
    rewrite IH by done. by rewrite string_app_assoc.
Qed.

Lemma split_go_walk (sep hub cur tail : string) (c0 : ascii) (sep' : string) :
  sep = String c0 sep' → includes hub (String c0 EmptyString) = false →
  split_go sep O cur (hub +:+ tail) = split_go sep O (cur +:+ hub) tail.
Proof.
  intros -> . revert cur. induction hub as [|c hub IH]; intros cur Hno.
  - by rewrite string_app_nil_r.
  - apply includes_cons in Hno as [Hp Hno]. cbn [String.append split_go].
    assert (String.prefix (String c0 sep') (String c (hub +:+ tail)) = false) as ->.
    { cbn in Hp |- *. destruct (ascii_dec c0 c); [|done].
      by rewrite prefix_nil in Hp. }
    rewrite IH by done. by rewrite string_app_assoc.
Qed.

Lemma split_go_head (sep t cur : string) :
  ∃ x rest, split_go sep O cur t = (cur +:+ x) :: rest
            ∧ (x = EmptyString ∨ ∃ c x' t', x = String c x' ∧ t = String c t').
Proof.
  revert cur. induction t as [|c t IH]; intros cur.
  - exists EmptyString, []. rewrite string_app_nil_r. by auto.
  - cbn [split_go]. destruct (String.prefix sep (String c t)).
    + eexists EmptyString, _. rewrite string_app_nil_r. by auto.
    + destruct (IH (cur +:+ String c EmptyString)) as (x & rest & -> & _).
      exists (String c x), rest. rewrite string_app_assoc. split; [done|].
      right. by eauto.
Qed.

(** X16: [hubFromSource] reads the hub name out of an event source: a
    source with no [/hubs/] gives the empty string, and a source whose first
    [/hubs/] is followed by a name without a slash, and then by a slash or
    by nothing, gives that name. *)
Theorem hubFromSource_reads_hub (pre hub tail : string) :
  (includes pre "/hubs/" = false → hubFromSource pre = EmptyString)
  ∧ (includes (pre +:+ "/hubs") "/hubs/" = false →
     includes hub "/" = false →
     tail = EmptyString ∨ startsWith tail "/" = true →
     hubFromSource (pre +:+ "/hubs/" +:+ hub +:+ tail) = hub).
Proof.
  split.
  - intros Hno. unfold hubFromSource, split. by rewrite split_go_no_sep.
  - intros Hpre Hhub Htail. unfold hubFromSource, split.
    rewrite (split_go_first_hubs pre EmptyString (hub +:+ tail) Hpre).
    rewrite (split_go_walk "/hubs/" hub EmptyString tail "/" "hubs/" eq_refl Hhub).
    destruct (split_go_head "/hubs/" tail (EmptyString +:+ hub))
      as (x & rest & -> & Hx).
    cbn [String.append].
    rewrite (split_go_walk "/" hub EmptyString x "/" EmptyString eq_refl Hhub).
    cbn [String.append].
    destruct Hx as [->|(c & x' & t' & -> & ->)]; [done|].
    destruct Htail as [?|Htail]; [done|].
    apply prefix_cons in Htail as [<- _]. cbn [split_go].
    assert (String.prefix "/" (String "/" x') = true) as ->
      by (cbn; apply prefix_nil).
    done.
Qed.

Lemma hubFromSource_reads_hub_witness :
  hubFromSource "/api/hubs/response-1b4e28ba/users/w1" = "response-1b4e28ba"
  ∧ hubFromSource "/api/events" = EmptyString.
Proof.
  split.
  - refine (proj2 (hubFromSource_reads_hub "/api" "response-1b4e28ba" "/users/w1")
              _ _ _); [by vm_compute | by vm_compute | right; by vm_compute].
  - refine (proj1 (hubFromSource_reads_hub "/api/events" EmptyString EmptyString) _).
    by vm_compute.
Defined.

End StringFacts.

(** ** The allow-list *)

Section AllowList.
Import Json Js ProxyServer.
Local Arguments String.append : simpl nomatch.

Lemma white_space_le (s : string) : (white_space s ≤ String.length s)%nat.
Proof. destruct s as [|a [|b [|c r]]]; cbn; repeat case_match; lia. Qed.

Lemma white_space_rev_le (s : string) : (white_space_rev s ≤ String.length s)%nat.
Proof. destruct s as [|a [|b [|c r]]]; cbn; repeat case_match; lia. Qed.

(** A white-space code point at the front of [u] is at the front of every
    string that [u] starts. *)
Lemma white_space_app (u x : string) (n : nat) :
  white_space u = S n → white_space (u +:+ x) = S n.
Proof. destruct u as [|a [|b [|c r]]]; cbn; repeat case_match; done. Qed.

Lemma length_skip_chars (n : nat) (s : string) :
  String.length (skip_chars n s) = (String.length s - n)%nat.
Proof.
  revert s. induction n as [|n IH]; intros [|c s]; cbn; auto.
Qed.

Lemma first_skip_chars (n : nat) (s : string) :
  first_chars n s +:+ skip_chars n s = s.
Proof.
  revert s. induction n as [|n IH]; intros [|c s]; cbn; try done. by rewrite IH.
Qed.

Section Strip.
Variable w : string → nat.
Hypothesis w_le : ∀ s, (w s ≤ String.length s)%nat.

Lemma strip_done (fuel : nat) (s : string) : w s = O → strip w fuel s = s.
Proof. intros H. destruct fuel; cbn [strip]; [done|]. by rewrite H. Qed.

Lemma strip_clean (fuel : nat) (s : string) :
  (String.length s ≤ fuel)%nat → w (strip w fuel s) = O.
Proof.
  revert s. induction fuel as [|k IH]; intros s Hlen; cbn [strip].
  - pose proof (w_le s). lia.
  - destruct (w s) as [|n] eqn:E; [done|]. apply IH.
    rewrite length_skip_chars. pose proof (w_le s). lia.
Qed.

Lemma strip_suffix (fuel : nat) (s : string) : ∃ pre, s = pre +:+ strip w fuel s.
Proof.
  revert s. induction fuel as [|k IH]; intros s; cbn [strip]; [by exists EmptyString|].
  destruct (w s) as [|n]; [by exists EmptyString|].
  destruct (IH (skip_chars (S n) s)) as [pre Hpre].
  exists (first_chars (S n) s +:+ pre).
  by rewrite string_app_assoc, <- Hpre, first_skip_chars.
Qed.
End Strip.

Lemma length_rev_app (a c : string) :
  String.length (String.rev_app a c) = (String.length a + String.length c)%nat.
Proof.
  revert c. induction a as [|x a IH]; intros c; cbn; [done|].
  rewrite IH. cbn. lia.
Qed.

Lemma length_rev (s : string) : String.length (String.rev s) = String.length s.
Proof. unfold String.rev. rewrite length_rev_app. cbn. lia. Qed.

Lemma trimEnd_clean (s : string) : white_space_rev (String.rev (trimEnd s)) = O.
Proof.
  unfold trimEnd. rewrite rev_rev.
  apply strip_clean; [apply white_space_rev_le | by rewrite length_rev].
Qed.

Lemma trimStart_clean (s : string) : white_space (trimStart s) = O.
Proof. by apply strip_clean; [apply white_space_le|]. Qed.

(** Stripping the end leaves the front as it was. *)
Lemma trimEnd_front (t : string) : white_space t = O → white_space (trimEnd t) = O.
Proof.
  intros Ht. unfold trimEnd.
  destruct (strip_suffix white_space_rev (String.length t) (String.rev t))
    as [pre Hpre].
  set (v := strip white_space_rev (String.length t) (String.rev t)) in *.
  assert (t = String.rev v +:+ String.rev pre) as Heq.
  { by rewrite <- rev_append, <- Hpre, rev_rev. }
  destruct (white_space (String.rev v)) as [|n] eqn:E; [done|].
  apply (white_space_app _ (String.rev pre)) in E. rewrite <- Heq in E. congruence.
Qed.

Lemma trim_fixed (t : string) : white_space t = O → trim (trimEnd t) = trimEnd t.
Proof.
  intros Ht. pose proof (trimEnd_front t Ht) as Hu.
  pose proof (trimEnd_clean t) as Hv.
  unfold trim, trimStart. rewrite (strip_done _ _ _ Hu).
  unfold trimEnd at 1. by rewrite (strip_done _ _ _ Hv), rev_rev.
Qed.

Lemma trim_idem (s : string) : trim (trim s) = trim s.
Proof. unfold trim at 2 3. apply trim_fixed, trimStart_clean. Qed.

(** X17: the allow-list read from [ALLOWED_CLIENT_IDS] holds no empty
    entry and no entry with white space around it, where white space is
    what [String.prototype.trim] strips (each entry is its own trim); when
    the variable is unset or empty the list is empty and every clientId is
    allowed; and when the list is not empty, an allowed clientId is itself
    non-empty and without surrounding white space. *)
Theorem allow_list_entries_are_trimmed (proc : Process) :
  (∀ x, x ∈ ALLOWED_CLIENT_IDS proc →
     nonempty x = true ∧ trim x = x
     ∧ white_space x = O ∧ white_space_rev (String.rev x) = O)
  ∧ (env proc !! "ALLOWED_CLIENT_IDS" = None
     ∨ env proc !! "ALLOWED_CLIENT_IDS" = Some EmptyString →
     ALLOWED_CLIENT_IDS proc = [] ∧ ∀ c, isClientAllowed proc c = true)
  ∧ (∀ c, ALLOWED_CLIENT_IDS proc ≠ [] → isClientAllowed proc c = true →
       nonempty c = true ∧ trim c = c).
Proof.
  assert (∀ x, x ∈ ALLOWED_CLIENT_IDS proc →
            nonempty x = true ∧ trim x = x
            ∧ white_space x = O ∧ white_space_rev (String.rev x) = O) as Hall.
  { intros x Hx. unfold ALLOWED_CLIENT_IDS in Hx.
    apply list_elem_of_In, filter_In in Hx as [Hx Hne]. split; [done|].
    apply in_map_iff in Hx as (raw & <- & _).
    pose proof (trim_idem raw) as Hidem. split; [exact Hidem|].
    split.
    - apply trimEnd_front, trimStart_clean.
    - apply trimEnd_clean. }
  split; [exact Hall|]. split.
  - intros Henv.
    assert (ALLOWED_CLIENT_IDS proc = []) as Hempty.
    { unfold ALLOWED_CLIENT_IDS, env_or. by destruct Henv as [-> | ->]. }
    split; [done|]. intros c. unfold isClientAllowed. by rewrite Hempty.
  - intros c Hlist Hok. destruct (Hall c) as (Hne & Htrim & _); [|done].
    apply list_includes_spec.
    unfold isClientAllowed in Hok. by destruct (ALLOWED_CLIENT_IDS proc).
Qed.

Lemma allow_list_entries_are_trimmed_witness :
  ALLOWED_CLIENT_IDS spaced_process = ["w1"; "w3"]
  ∧ trim "w3" = "w3"
  ∧ isClientAllowed spaced_process "w3" = true
  ∧ isClientAllowed plain_process " anyone " = true.
Proof.
  destruct (allow_list_entries_are_trimmed spaced_process) as (Hin & _ & _).
  destruct (allow_list_entries_are_trimmed plain_process) as (_ & Hempty & _).
  assert (ALLOWED_CLIENT_IDS spaced_process = ["w1"; "w3"]) as Hlist by (by vm_compute).
  split; [exact Hlist|]. split; [|split].
  - apply Hin. rewrite Hlist. by repeat constructor.
  - by vm_compute.
  - apply Hempty. by left.
Defined.

End AllowList.

(** ** Outcomes of an invocation, colliding ids, foreign hubs *)

Section Outcomes.
Import Json Js ProxyServer.
Context {rt : Runtime}.

(** X18: what [handleInvoke] can answer before it waits: without clientId or
    path it answers 400 and never consults the readiness store; when the
    store throws, the handler throws and the state is as it was; it waits on
    a promise exactly when the parameters are present, the worker is ready
    and the publish succeeded; and any immediate answer has status 400, 409
    or 502. *)
Theorem invoke_outcomes (st : State) (req : Request) (uuid : string)
    (publish_ok : bool) :
  (param req "clientId" = None ∨ param req "path" = None →
   handleInvoke st req uuid publish_ok
   = (st, Replied (json (error_body "Missing required query params: clientId and path") 400)))
  ∧ (∀ clientId path, readInvokeParams req = (Some clientId, Some path) →
       isReady (readyStore st) clientId = None →
       handleInvoke st req uuid publish_ok = (st, Threw))
  ∧ ((∃ p, (handleInvoke st req uuid publish_ok).2 = Awaiting uuid p)
     ↔ ∃ clientId path, readInvokeParams req = (Some clientId, Some path)
                        ∧ isReady (readyStore st) clientId = Some true
                        ∧ publish_ok = true)
  ∧ (∀ r, (handleInvoke st req uuid publish_ok).2 = Replied r →
       status r = 400 ∨ status r = 409 ∨ status r = 502).
Proof.
  split; [|split; [|split]].
  - intros Hmiss. unfold handleInvoke, readInvokeParams.
    destruct Hmiss as [-> | ->]; [done|]. by destruct (param req "clientId").
  - intros clientId path Hp Hr. unfold handleInvoke. by rewrite Hp, Hr.
  - split.
    + intros [p Hres]. unfold handleInvoke in Hres.
      destruct (readInvokeParams req) as [[clientId|] [path|]] eqn:Hp;
        try discriminate Hres.
      destruct (isReady (readyStore st) clientId) as [[]|] eqn:Hr;
        try discriminate Hres.
      destruct publish_ok; [|discriminate Hres]. by eauto 6.
    + intros (clientId & path & Hp & Hr & ->).
      rewrite (handleInvoke_ready _ _ _ _ _ _ Hp Hr). cbn. by eauto.
  - intros r Hres. unfold handleInvoke in Hres.
    destruct (readInvokeParams req) as [[clientId|] [path|]];
      try (injection Hres as <-; by auto).
    destruct (isReady (readyStore st) clientId) as [[]|];
      try discriminate Hres; try (injection Hres as <-; by auto).
    destruct publish_ok; [discriminate Hres|]. injection Hres as <-. by auto.
Qed.

(** X19: what a repeated requestId costs: if [uuidv4] returned an id that
    is still pending, the new entry replaces the old one while the old timer
    stays armed; when that timer elapses it rejects the old promise and
    deletes the entry of the new invocation, whose promise is still
    unsettled; a response for the id that arrives afterwards is dropped, so
    the new invocation too can only end by its own timeout. *)
Theorem repeated_requestId_loses_entry (proc : Process) (db : gmap string string)
    (connected : bool) (evs : list Event) (req : Request)
    (uuid clientId path : string) (e0 : Pending) :
  let st := run proc (initial proc db connected) evs in
  pending st !! uuid = Some e0 →
  readInvokeParams req = (Some clientId, Some path) →
  isReady (readyStore st) clientId = Some true →
  let st1 := (handleInvoke st req uuid true).1 in
  let st2 := on_timeout (timer e0) st1 in
  ∃ p1, (handleInvoke st req uuid true).2 = Awaiting uuid p1
        ∧ p1 ≠ resolve e0
        ∧ (resolve <$> pending st1 !! uuid) = Some p1
        ∧ pending st2 !! uuid = None
        ∧ settled_as st2 (resolve e0) = Some (Rejected "Gateway Timeout")
        ∧ settled_as st2 p1 = None
        ∧ ∀ wreq data, response_event proc wreq uuid data →
            (handleEvents proc st2 wreq).1 = st2.
Proof.
  intros st He0 Hp Hr st1 st2.
  assert (Inv st) as HI by apply Inv_run, Inv_initial.
  destruct (handleInvoke_awaiting st req uuid clientId path HI Hp Hr)
    as (Hres & He & Ht & Hfresh & HI1).
  fold st1 in He, Ht, HI1.
  destruct (entry_unsettled st uuid e0 HI He0) as [Hun0 (cb0 & Hcb0 & Hrej0 & Hrid0)].
  assert (timer e0 ≠ next_timer st) as Hne by congruence.
  assert (timers st1 !! timer e0 = Some cb0) as Hcb1.
  { rewrite Ht. by rewrite lookup_insert_ne. }
  destruct (timeout_path proc st1 _ _ HI1 Hcb1) as (_ & Hp2 & Hs2 & _ & Hlate).
  fold st2 in Hp2, Hs2, Hlate. rewrite Hrej0 in Hs2. rewrite Hrid0 in Hp2, Hlate.
  assert (next_promise st ≠ resolve e0) as Hnew.
  { apply (inv_promise st HI) in Hun0 as [_ ?]. lia. }
  exists (next_promise st). split; [exact Hres|]. split; [exact Hnew|].
  split; [by rewrite He|]. split; [|split; [|split]].
  - rewrite Hp2. apply lookup_delete_eq.
  - unfold settled_as. by rewrite Hs2.
  - destruct (entry_unsettled st1 uuid _ HI1 He) as [Hun1 _]. cbn [resolve] in Hun1.
    unfold settled_as, st2, on_timeout, timeout_callback. rewrite Hcb1. cbn.
    rewrite lookup_alter_ne by congruence. by rewrite Hun1.
  - exact Hlate.
Qed.

(** X20: only a user message on this instance's own response hub can
    settle a request: a webhook call of any other event type, or for any
    other hub (the system hub and the response hub of another instance
    included), leaves the pending table, the timers and the promises as
    they were, even when its payload is a response for a pending id. *)
Theorem foreign_hub_settles_nothing (proc : Process) (st : State) (req : Request) :
  header req "ce-type" ≠ "azure.webpubsub.user.message"
  ∨ or_else (header req "ce-hub") (hubFromSource (header req "ce-source"))
    ≠ RESPONSE_HUB proc →
  let st' := (handleEvents proc st req).1 in
  pending st' = pending st ∧ timers st' = timers st ∧ promises st' = promises st
  ∧ published st' = published st.
Proof.
  intros Hforeign. unfold handleEvents. cbn [fst].
  assert (String.eqb (header req "ce-type") "azure.webpubsub.user.message"
          && String.eqb (or_else (header req "ce-hub")
                           (hubFromSource (header req "ce-source")))
               (RESPONSE_HUB proc) = false) as ->.
  { apply andb_false_iff. destruct Hforeign as [H|H]; [left | right];
      by apply String.eqb_neq. }
  destruct (_ && _); [|done].
  unfold on_system. by repeat case_match.
Qed.

End Outcomes.

Section OutcomesExamples.
Import Json Js ProxyServer.
#[local] Existing Instance example_runtime.

Lemma invoke_outcomes_witness :
  handleInvoke waiting_state (post "/invoke" [("path", "/hello")] ∅ EmptyString None)
    "r2" true
  = (waiting_state,
     Replied (json (error_body "Missing required query params: clientId and path") 400)).
Proof.
  apply (proj1 (invoke_outcomes waiting_state
                  (post "/invoke" [("path", "/hello")] ∅ EmptyString None) "r2" true)).
  left. reflexivity.
Defined.

Lemma repeated_requestId_loses_entry_witness :
  let st1 := (handleInvoke waiting_state (invoke_request "w1" "/again") "r1" true).1 in
  (resolve <$> pending st1 !! "r1") = Some 1%nat
  ∧ pending (on_timeout 0 st1) !! "r1" = None
  ∧ settled_as (on_timeout 0 st1) 1%nat = None.
Proof.
  cbv zeta.
  destruct (repeated_requestId_loses_entry plain_process ∅ false
              [EvInit (init_request "w1");
               EvInvoke (invoke_request "w1" "/hello") "r1" true]
              (invoke_request "w1" "/again") "r1" "w1" "/again"
              {| resolve := 0; reject := 0; timer := 0 |}
              ltac:(by vm_compute) eq_refl ltac:(by vm_compute))
    as (p1 & Hres & _ & Hentry & Hgone & _ & Hun & _).
  assert (p1 = 1%nat) as -> by (vm_compute in Hres; by injection Hres).
  split; [exact Hentry|]. split; [exact Hgone | exact Hun].
Defined.

Lemma foreign_hub_settles_nothing_witness :
  pending (handleEvents plain_process waiting_state
             (response_request tuned_process hello_response)).1
  = pending waiting_state.
Proof.
  refine (proj1 (foreign_hub_settles_nothing plain_process waiting_state
                   (response_request tuned_process hello_response) _)).
  right. by vm_compute.
Defined.

End OutcomesExamples.

(** ** From the caller to the local API and back *)

Section EndToEnd.
Import Json Js ProxyServer ProxyClient.
Context {rt : Runtime}.

Lemma forwardToLocal_returned LOCAL (e : RequestEnvelope) resp :
  forwardToLocal LOCAL (Some (request_value e)) (Returned resp)
  = Returned match read_body resp with
             | Returned b =>
                 {| res_requestId := Some (JStr (req_requestId e));
                    res_status := int (resp_status resp); res_body := b |}
             | Thrown err =>
                 {| res_requestId := Some (JStr (req_requestId e));
                    res_status := int 500;
                    res_body := JObj [("error", JStr (diagnostic err))] |}
             end.
Proof.
  unfold forwardToLocal.
  assert (∃ c, local_call LOCAL (Some (request_value e)) = Returned c) as [c ->].
  { destruct e as [i m p b]. unfold local_call, request_value. cbn.
    destruct (nonempty m); eauto. }
  assert (get "requestId" (Some (request_value e)) = Some (JStr (req_requestId e))) as Hid
    by (by destruct e).
  unfold error_response. rewrite Hid. by destruct (read_body resp).
Qed.


(** X22: the way through the bridge and back. For a ready worker,
    [handleInvoke] hands the envelope of the request to the transport and
    waits. When a frame that carries that envelope reaches [onMessage], the
    forwarder sends one frame: the [sendToGroup] whose data is the response
    object with the requestId of the invocation. When a webhook call that
    carries that response object reaches the response hub of the instance,
    the waiting promise is fulfilled with the status and body of the
    response and the entry leaves the table. The caller is then answered
    with the status and body of the local reply when that status is from
    200 to 599 and not 204, 205 or 304, and with 500 and the diagnostic when
    the local call threw. *)
Theorem bridge_round_trip (proc : Process) (db : gmap string string)
    (connected : bool) (evs : list Event) (req : Request)
    (uuid clientId path LOCAL_API_URL data : string) (m : JSON)
    (fetched : Completion FetchResponse) :
  let st := run proc (initial proc db connected) evs in
  let message := request_message uuid (method req) path (invoke_body req) in
  readInvokeParams req = (Some clientId, Some path) →
  isReady (readyStore st) clientId = Some true →
  JSON_parse data = Some m → message_frame m message →
  let st1 := (handleInvoke st req uuid true).1 in
  ∃ p r,
    let response :=
      JObj [("type", JStr "response"); ("requestId", JStr uuid);
            ("status", JNum (res_status r)); ("body", res_body r)] in
    let outcome := Resolved (res_status r) (res_body r) in
    published st1 = published st ++ [(clientId, JSON_stringify message)]
    ∧ (handleInvoke st req uuid true).2 = Awaiting uuid p
    ∧ forwardToLocal LOCAL_API_URL (Some message) fetched = Returned r
    ∧ onMessage LOCAL_API_URL data fetched
      = [JSON_stringify
           (JObj [("type", JStr "sendToGroup"); ("group", JStr "server");
                  ("dataType", JStr "json"); ("data", response)])]
    ∧ (∀ wreq, response_event proc wreq uuid (Some response) →
         let st2 := (handleEvents proc st1 wreq).1 in
         settled_as st2 p = Some outcome ∧ pending st2 !! uuid = None)
    ∧ (∀ resp b, fetched = Returned resp → read_body resp = Returned b →
         200 ≤ resp_status resp ≤ 599 →
         resp_status resp ≠ 204 → resp_status resp ≠ 205 → resp_status resp ≠ 304 →
         handleInvoke_resume outcome = json b (resp_status resp))
    ∧ (∀ err, fetched = Thrown err →
         handleInvoke_resume outcome
         = json (JObj [("error", JStr (diagnostic err))]) 500).
Proof.
  intros st message Hp Hr Hparse Hframe st1.
  set (e := {| req_requestId := uuid; req_method := method req; req_path := path;
               req_body := Some (invoke_body req) |}).
  change message with (request_value e) in *.
  destruct (forwardToLocal_typed LOCAL_API_URL e fetched) as (r & Hfw & Hid & Herr).
  pose proof (onMessage_frame LOCAL_API_URL e fetched data m r Hparse Hframe Hfw) as Hsend.
  assert (Inv st) as HI by apply Inv_run, Inv_initial.
  destruct (handleInvoke_awaiting st req uuid clientId path HI Hp Hr)
    as (Hres & He & _ & _ & HI1).
  fold st1 in He, HI1.
  exists (next_promise st), r. cbv zeta.
  split; [|split; [exact Hres|split; [exact Hfw|split; [|split; [|split]]]]].
  - unfold st1. by rewrite (handleInvoke_ready _ _ _ _ _ _ Hp Hr).
  - rewrite Hsend. unfold outbound, response_value. by rewrite Hid.
  - intros wreq Hev.
    destruct (resolve_path proc st1 wreq uuid _ _ HI1 Hev He) as (Hp2 & _ & Hs2 & _ & _).
    cbn [resolve timer] in *. split.
    + unfold settled_as. by rewrite Hs2.
    + rewrite Hp2. apply lookup_delete_eq.
  - intros resp b -> Hb Hrange H204 H205 H304.
    rewrite forwardToLocal_returned, Hb in Hfw. injection Hfw as <-.
    cbn [res_status res_body]. unfold handleInvoke_resume.
    rewrite (Response_status_accepted _ (resp_status resp)); try done.
    unfold int, integer_value. by rewrite Z.mod_1_r, Z.div_1_r.
  - intros err Hthrown. destruct (Herr err Hthrown) as [-> ->]. reflexivity.
Qed.

End EndToEnd.

Section EndToEndExamples.
Import Json Js ProxyServer ProxyClient.
#[local] Existing Instance example_runtime.


Lemma bridge_round_trip_witness :
  ∃ r, onMessage "http://localhost:3000"
         (stringify (JObj [("type", JStr "message");
                           ("data", request_message "r1" "POST" "/hello" JNull)]))
         (Thrown refused)
       = [stringify
            (JObj [("type", JStr "sendToGroup"); ("group", JStr "server");
                   ("dataType", JStr "json");
                   ("data",
                    JObj [("type", JStr "response"); ("requestId", JStr "r1");
                          ("status", JNum (res_status r));
                          ("body", res_body r)])])]
       ∧ status (handleInvoke_resume (Resolved (res_status r) (res_body r))) = 500.
Proof.
  destruct (bridge_round_trip plain_process ∅ false [EvInit (init_request "w1")]
              (invoke_request "w1" "/hello") "r1" "w1" "/hello"
              "http://localhost:3000"
              (stringify (JObj [("type", JStr "message");
                                ("data", request_message "r1" "POST" "/hello" JNull)]))
              (JObj [("type", JStr "message");
                     ("data", request_message "r1" "POST" "/hello" JNull)])
              (Thrown refused) eq_refl ltac:(by vm_compute) ltac:(by vm_compute)
              ltac:(by split))
    as (p & r & _ & _ & _ & Hsend & _ & _ & H500).
  exists r. split; [exact Hsend|]. by rewrite (H500 refused).
Defined.

End EndToEndExamples.
